(** * EER Studio: the text <-> diagram synchronisation engine

    A shallow embedding of [parseCode] (DSL text to nodes and links) and of
    [updateCodePosition] (a node move written back into its source line),
    the two functions of the editor component that keep the text and the
    diagram in step, followed by the properties proved about them. *)

From Stdlib Require Import ZArith NArith QArith Qround Lia Ascii String.
From Stdlib Require Import DecimalN.
From stdpp Require Import list gmap.

(** ** JavaScript strings

    A string is its sequence of UTF-16 code units.  Every string operation
    the two functions use ([split], [trim], [match], [replace], [includes],
    [startsWith]) works on code units, so nothing is lost. *)

Definition char := N.
Definition jsstring := list char.

Definition chr (a : ascii) : char := N_of_ascii a.
Arguments chr a%_char.

(** The code units of an ASCII literal. *)
Definition js (s : string) : jsstring := chr <$> list_ascii_of_string s.
Arguments js s%_string.

Definition LF : char := 10%N.
Definition DQUOTE : char := 34%N.

(** [\s] of a regular expression, which is also what [trim] removes:
    WhiteSpace and LineTerminator of ECMAScript. *)
Definition is_space (c : char) : bool :=
  ((9 <=? c) && (c <=? 13) || (c =? 32) || (c =? 160) || (c =? 5760)
   || (8192 <=? c) && (c <=? 8202) || (c =? 8232) || (c =? 8233)
   || (c =? 8239) || (c =? 8287) || (c =? 12288) || (c =? 65279))%N.

(** [\d]. *)
Definition is_digit (c : char) : bool := ((48 <=? c) && (c <=? 57))%N.

Fixpoint dropWhile (p : char → bool) (s : jsstring) : jsstring :=
  match s with
  | c :: s' => if p c then dropWhile p s' else s
  | [] => []
  end.

Fixpoint takeWhile (p : char → bool) (s : jsstring) : jsstring :=
  match s with
  | c :: s' => if p c then c :: takeWhile p s' else []
  | [] => []
  end.

Definition trimStart (s : jsstring) : jsstring := dropWhile is_space s.
Definition trimEnd (s : jsstring) : jsstring := reverse (dropWhile is_space (reverse s)).
Definition trim (s : jsstring) : jsstring := trimEnd (trimStart s).

Fixpoint startsWith (s p : jsstring) {struct p} : bool :=
  match p, s with
  | [], _ => true
  | a :: p', c :: s' => (c =? a)%N && startsWith s' p'
  | _ :: _, [] => false
  end.

(** [s.includes(sub)]: [sub] starts at some position of [s]. *)
Fixpoint includes (s sub : jsstring) : bool :=
  startsWith s sub ||
  match s with
  | [] => false
  | _ :: s' => includes s' sub
  end.

(** [s.split(sep)] for a one-character separator: always at least one piece. *)
Fixpoint split_acc (sep : char) (cur : jsstring) (s : jsstring) : list jsstring :=
  match s with
  | [] => [reverse cur]
  | c :: s' =>
      if (c =? sep)%N then reverse cur :: split_acc sep [] s'
      else split_acc sep (c :: cur) s'
  end.
Definition str_split (sep : char) (s : jsstring) : list jsstring := split_acc sep [] s.

(** [lines.join(sep)]. *)
Fixpoint str_join (sep : char) (l : list jsstring) : jsstring :=
  match l with
  | [] => []
  | [s] => s
  | s :: l' => s ++ sep :: str_join sep l'
  end.

(** [s.split(/\s+/)]: the pieces between the maximal runs of white space;
    a run at either end leaves an empty piece there.  [insep] says that the
    previous character belonged to a separator. *)
Fixpoint split_spaces_acc (cur : jsstring) (insep : bool) (s : jsstring) : list jsstring :=
  match s with
  | [] => [reverse cur]
  | c :: s' =>
      if is_space c then
        if insep then split_spaces_acc cur true s'
        else reverse cur :: split_spaces_acc [] true s'
      else split_spaces_acc (c :: cur) false s'
  end.
Definition split_spaces (s : jsstring) : list jsstring := split_spaces_acc [] false s.

(** [s.toLowerCase()].  The result is only ever compared with the ASCII
    command keywords, so the code units that matter are those that can lower
    to an ASCII letter: [A]-[Z] and U+212A KELVIN SIGN.  Every other code
    unit lowers to non-ASCII text (or, for U+0130, to [i] followed by
    U+0307) and is left as it is here: no comparison with a keyword changes. *)
Definition toLowerCase_unit (c : char) : char :=
  (if (65 <=? c) && (c <=? 90) then c + 32
   else if c =? 8490 then 107
   else c)%N.
Definition toLowerCase (s : jsstring) : jsstring := toLowerCase_unit <$> s.

(** ** Numbers

    Coordinates are integer-valued doubles; they are modelled by [Z].  The
    model is exact on the safe integers (magnitude below 2^53), where
    [parseInt] loses no digit and the decimal form is printed in full. *)

Definition Number_isSafeInteger (z : Z) : Prop := (Z.abs z < 2 ^ 53)%Z.

Definition digit_value (c : char) : N := (c - 48)%N.

(** The value of a run of decimal digits. *)
Definition digits_value (s : jsstring) : N :=
  foldl (λ acc c, 10 * acc + digit_value c)%N 0%N s.

(** [parseInt(s, 10)] on a text of the shape [-?\d+], the only shape a
    capture group of [COORD_REGEX] can have.  The value is the integer
    that the digits write; the program holds the nearest double, which is
    that integer when it is a safe one.  A statement that reads a position
    off a numeral carries [Number_isSafeInteger] for it. *)
Definition parseInt (s : jsstring) : Z :=
  match s with
  | c :: ds => if (c =? chr "-")%N then (- Z.of_N (digits_value ds))%Z
               else Z.of_N (digits_value s)
  | [] => 0%Z
  end.

Fixpoint uint_chars (d : Decimal.uint) : jsstring :=
  match d with
  | Decimal.Nil => []
  | Decimal.D0 d => chr "0" :: uint_chars d
  | Decimal.D1 d => chr "1" :: uint_chars d
  | Decimal.D2 d => chr "2" :: uint_chars d
  | Decimal.D3 d => chr "3" :: uint_chars d
  | Decimal.D4 d => chr "4" :: uint_chars d
  | Decimal.D5 d => chr "5" :: uint_chars d
  | Decimal.D6 d => chr "6" :: uint_chars d
  | Decimal.D7 d => chr "7" :: uint_chars d
  | Decimal.D8 d => chr "8" :: uint_chars d
  | Decimal.D9 d => chr "9" :: uint_chars d
  end.

(** The decimal digits of a natural number, without leading zeros. *)
Definition decimal (n : N) : jsstring := uint_chars (N.to_uint n).

(** [String(z)], as a template literal prints an integer: all its decimal
    digits.  This is the text of the program for the safe integers; beyond
    them the program prints the digits of a double, and an exponent form
    from 10^21 on.  A statement that says what is printed carries
    [Number_isSafeInteger] for it. *)
Definition Number_toString (z : Z) : jsstring :=
  if (z <? 0)%Z then chr "-" :: decimal (Z.abs_N z) else decimal (Z.abs_N z).

(** [Math.round(q)]: the nearest integer, a tie going up.  A finite double
    is a rational number. *)
Definition Math_round (q : Q) : Z := Qfloor (q + (1 # 2)).

(** ** Regular expressions

    Both patterns of the source are sequences of single characters and of
    greedy repetitions of a character class, each repetition followed by
    something its class excludes: a match from a given position is found
    without backtracking.  [expect] reads one character, [takeWhile] and
    [dropWhile] read a greedy repetition.  ([COORD_REGEX_at_sound] and
    [COORD_REGEX_at_complete] below check the matcher against the language
    of the pattern.) *)

Definition expect (a : char) (s : jsstring) : option jsstring :=
  match s with
  | c :: s' => if (c =? a)%N then Some s' else None
  | [] => None
  end.

Definition skip_spaces (s : jsstring) : jsstring := dropWhile is_space s.

(** [(-?\d+)]: the captured text and what follows it. *)
Definition signed_digits (s : jsstring) : option (jsstring * jsstring) :=
  let sign := match expect (chr "-") s with Some _ => [chr "-"] | None => [] end in
  let s1 := match expect (chr "-") s with Some s' => s' | None => s end in
  match takeWhile is_digit s1 with
  | [] => None
  | ds => Some (sign ++ ds, dropWhile is_digit s1)
  end.

(** [COORD_REGEX = /\(\s*(-?\d+),\s*(-?\d+)\s*\)/] matched from the first
    character of [s]: the two captures and the text after the match. *)
Definition COORD_REGEX_at (s : jsstring) : option (jsstring * jsstring * jsstring) :=
  s1 ← expect (chr "(") s;
  '(g1, s2) ← signed_digits (skip_spaces s1);
  s3 ← expect (chr ",") s2;
  '(g2, s4) ← signed_digits (skip_spaces s3);
  s5 ← expect (chr ")") (skip_spaces s4);
  Some (g1, g2, s5).

(** The label pattern of a [link] line (a double quote, a capture of one or
    more characters other than a double quote, a double quote) matched
    from the first character of [s]. *)
Definition LABEL_REGEX_at (s : jsstring) : option (jsstring * jsstring) :=
  s1 ← expect DQUOTE s;
  match takeWhile (λ c, negb (c =? DQUOTE)%N) s1 with
  | [] => None
  | body => s2 ← expect DQUOTE (dropWhile (λ c, negb (c =? DQUOTE)%N) s1);
            Some (body, s2)
  end.

(** A pattern without flags matches at the leftmost position where it can:
    the text before the match, the captures, the text after it. *)
Fixpoint regex_exec {G} (at_ : jsstring → option (G * jsstring)) (s : jsstring)
    : option (jsstring * G * jsstring) :=
  match at_ s with
  | Some (g, rest) => Some ([], g, rest)
  | None =>
      match s with
      | [] => None
      | c :: s' =>
          match regex_exec at_ s' with
          | Some (before, g, rest) => Some (c :: before, g, rest)
          | None => None
          end
      end
  end.

Definition COORD_REGEX_exec (s : jsstring) : option (jsstring * (jsstring * jsstring) * jsstring) :=
  regex_exec COORD_REGEX_at s.

(** [COORD_REGEX.test(s)]. *)
Definition COORD_REGEX_test (s : jsstring) : bool :=
  match COORD_REGEX_exec s with Some _ => true | None => false end.

(** [s.replace(COORD_REGEX, '')]: the first match is cut out. *)
Definition COORD_REGEX_remove (s : jsstring) : jsstring :=
  match COORD_REGEX_exec s with
  | Some (before, _, rest) => before ++ rest
  | None => s
  end.

Definition LABEL_REGEX_exec (s : jsstring) : option (jsstring * jsstring * jsstring) :=
  regex_exec LABEL_REGEX_at s.

(** ** The diagram model *)

(** [NodeType]: one constructor per string of the union type. *)
Inductive NodeType :=
  | Entity | WeakEntity | Relationship | IdentifyingRelationship
  | Attribute | KeyAttribute | MultivaluedAttribute | DerivedAttribute
  | Specialization | UnionNode.

Inductive LinkStyle := Solid | Double.

Global Instance NodeType_eq_dec : EqDecision NodeType.
Proof. solve_decision. Defined.
Global Instance LinkStyle_eq_dec : EqDecision LinkStyle.
Proof. solve_decision. Defined.

(** A value of type [string] that may be [undefined] at run time, as
    [parts[1]] is on a line with a single token. *)
Definition jsvalue := option jsstring.

(** [NodeData].  [x] and [y] are integers when they leave the parser. *)
Record NodeData := {
  node_id : jsvalue;
  node_type : NodeType;
  node_label : jsvalue;
  node_x : Z;
  node_y : Z;
  node_meta : jsvalue;
  node_lineIndex : Z
}.

(** [LinkData]. *)
Record LinkData := {
  link_source : jsvalue;
  link_target : jsvalue;
  link_label : jsstring;
  link_style : LinkStyle
}.

(** What [parseCode] returns. *)
Record Diagram := { nodes : list NodeData; links : list LinkData }.

(** A value in a condition: [undefined] and the empty string are falsy. *)
Definition truthy (v : jsvalue) : bool :=
  match v with
  | Some (_ :: _) => true
  | _ => false
  end.

(** [v || d]. *)
Definition or_else (v : jsvalue) (d : jsstring) : jsstring :=
  match v with
  | Some (c :: s) => c :: s
  | _ => d
  end.

(** A value inside a template literal. *)
Definition template (v : jsvalue) : jsstring := default (js "undefined") v.

Definition nodeCommands : list jsstring :=
  [js "ent"; js "weak_ent"; js "rel"; js "ident_rel";
   js "att"; js "key_att"; js "derived_att"; js "multivalued_attribute"].

Definition attributeCommands : list jsstring :=
  [js "att"; js "key_att"; js "derived_att"; js "multivalued_attribute"].

Definition specCommands : list jsstring := [js "spec"; js "union"].

(** The recognised command keywords. *)
Definition commands : list jsstring := nodeCommands ++ specCommands ++ [js "link"].

(** ** The locals of the loop body of [parseCode], as functions of the line *)

Definition cleanLine (line : jsstring) : jsstring := trim line.

(** The early [return] of the loop body: blank lines and comments. *)
Definition skipped (line : jsstring) : bool :=
  bool_decide (cleanLine line = []) || startsWith (cleanLine line) (js "//").

Definition coordMatch (line : jsstring) := COORD_REGEX_exec (cleanLine line).

Definition lineWithoutCoords (line : jsstring) : jsstring :=
  trim (COORD_REGEX_remove (cleanLine line)).

Definition parts (line : jsstring) : list jsstring := split_spaces (lineWithoutCoords line).

Definition command (line : jsstring) : jsstring := toLowerCase (default [] (parts line !! 0)).

(** The accumulators of one run of [parseCode].  [angle] counts the calls of
    [getDefaultPos] so far: the double it stands for is 0.6 added that many
    times to 0. *)
Record ParseState := {
  newNodes : list NodeData;
  newLinks : list LinkData;
  existingIds : gset jsvalue;
  angle : nat
}.

Definition initialState : ParseState :=
  {| newNodes := []; newLinks := []; existingIds := ∅; angle := 0 |}.

(** [lines.forEach((line, index) => ...)] with the closure's variables
    threaded through. *)
Fixpoint forEach {S A} (f : S → nat → A → S) (st : S) (index : nat) (l : list A) : S :=
  match l with
  | [] => st
  | a :: l' => forEach f (f st index a) (Datatypes.S index) l'
  end.

Definition coord_x (line : jsstring) : option Z :=
  (λ m, parseInt m.1.2.1) <$> coordMatch line.
Definition coord_y (line : jsstring) : option Z :=
  (λ m, parseInt m.1.2.2) <$> coordMatch line.

Definition nodeTypeOf (command : jsstring) : NodeType :=
  let type := Entity in
  let type := if decide (command = js "weak_ent") then WeakEntity else type in
  let type := if decide (command = js "rel") then Relationship else type in
  let type := if decide (command = js "ident_rel") then IdentifyingRelationship else type in
  let type := if decide (command = js "att") then Attribute else type in
  let type := if decide (command = js "key_att") then KeyAttribute else type in
  let type := if decide (command = js "derived_att") then DerivedAttribute else type in
  let type := if decide (command = js "multivalued_attribute") then MultivaluedAttribute else type in
  type.

(** The inline shorthand [-> OWNER] after the label. *)
Definition shorthand (parts : list jsstring) (id : jsvalue) (style : LinkStyle)
    : list LinkData :=
  if bool_decide (parts !! 2 = Some (js "->")) && truthy (parts !! 3)
  then [{| link_source := parts !! 3; link_target := id;
           link_label := []; link_style := style |}]
  else [].

(** The branch of [link]. *)
Definition declareLink (st : ParseState) (lineWithoutCoords : jsstring)
    (parts : list jsstring) : ParseState :=
  let source := parts !! 1 in
  let target := parts !! 2 in
  let label :=
    match LABEL_REGEX_exec lineWithoutCoords with
    | Some (_, body, _) => body
    | None => []
    end in
  let style :=
    if includes lineWithoutCoords (js "[total]") || includes lineWithoutCoords (js "[double]")
    then Double else Solid in
  if truthy source && truthy target then
    {| newNodes := newNodes st;
       newLinks := newLinks st ++
         [{| link_source := source; link_target := target;
             link_label := label; link_style := style |}];
       existingIds := existingIds st;
       angle := angle st |}
  else st.

(** The spiral: [spiral_x k] is
    [Math.round(center.x + Math.cos(angle) * r)] and [spiral_y k] is
    [Math.round(center.y + Math.sin(angle) * r)] once [angle] has been
    advanced [k] times.  They are floating-point computations and stay
    parameters of the development. *)
Class Spiral := { spiral_x : nat → Z; spiral_y : nat → Z }.

Section Parser.

Context `{Spiral}.

(** [getDefaultPos()]: advances the angle, returns the position. *)
Definition getDefaultPos (angle : nat) : nat * (Z * Z) :=
  let angle := S angle in
  (angle, (spiral_x angle, spiral_y angle)).

(** [finalX], [finalY] and the angle after them. *)
Definition finalPos (x y : option Z) (angle : nat) : nat * (Z * Z) :=
  match x, y with
  | Some finalX, Some finalY => (angle, (finalX, finalY))
  | _, _ => getDefaultPos angle
  end.

(** The branch of the node commands. *)
Definition declareNode (st : ParseState) (index : nat) (command : jsstring)
    (parts : list jsstring) (x y : option Z) : ParseState :=
  let label := parts !! 1 in
  let isAttribute := bool_decide (command ∈ attributeCommands) in
  let id := label in
  let id :=
    if isAttribute || bool_decide (id ∈ existingIds st)
    then Some (template label ++ js "_" ++ decimal (N.of_nat index))
    else id in
  let '(angle', (finalX, finalY)) := finalPos x y (angle st) in
  {| newNodes := newNodes st ++
       [{| node_id := id; node_type := nodeTypeOf command; node_label := label;
           node_x := finalX; node_y := finalY; node_meta := None;
           node_lineIndex := Z.of_nat index |}];
     newLinks := newLinks st ++ shorthand parts id Solid;
     existingIds := {[ id ]} ∪ existingIds st;
     angle := angle' |}.

(** The branch of [spec] and [union]. *)
Definition declareSpec (st : ParseState) (index : nat) (command : jsstring)
    (parts : list jsstring) (x y : option Z) : ParseState :=
  let meta :=
    or_else (parts !! 1) (if decide (command = js "union") then js "u" else js "d") in
  let id := or_else (parts !! 1) (js "spec_" ++ decimal (N.of_nat index)) in
  let id :=
    if bool_decide (Some id ∈ existingIds st)
    then id ++ js "_" ++ decimal (N.of_nat index)
    else id in
  let '(angle', (finalX, finalY)) := finalPos x y (angle st) in
  {| newNodes := newNodes st ++
       [{| node_id := Some id;
           node_type := if decide (command = js "union") then UnionNode else Specialization;
           node_label := Some meta;
           node_x := finalX; node_y := finalY; node_meta := Some meta;
           node_lineIndex := Z.of_nat index |}];
     newLinks := newLinks st ++ shorthand parts (Some id) Double;
     existingIds := {[ Some id ]} ∪ existingIds st;
     angle := angle' |}.

(** The body of the loop. *)
Definition processLine (st : ParseState) (index : nat) (line : jsstring) : ParseState :=
  if skipped line then st
  else if bool_decide (command line ∈ nodeCommands)
  then declareNode st index (command line) (parts line) (coord_x line) (coord_y line)
  else if bool_decide (command line ∈ specCommands)
  then declareSpec st index (command line) (parts line) (coord_x line) (coord_y line)
  else if bool_decide (command line = js "link")
  then declareLink st (lineWithoutCoords line) (parts line)
  else st.

Definition parseLines (lines : list jsstring) : ParseState :=
  forEach processLine initialState 0 lines.

(** [parseCode]. *)
Definition parseCode (code : jsstring) : Diagram :=
  let st := parseLines (str_split LF code) in
  {| nodes := newNodes st; links := newLinks st |}.

End Parser.

(** ** Write-back *)

(** The guarded block of [updateCodePosition], entered with the line index
    of the node found: the value of [code] when the function returns (what
    [setCode] received, or [code] itself when nothing was set). *)
Definition updateCodePosition_line (code : jsstring) (lineIndex : Z) (newX newY : Q)
    : jsstring :=
  let lines := str_split LF code in
  if ((0 <=? lineIndex) && (lineIndex <? Z.of_nat (length lines)))%Z then
    match lines !! Z.to_nat lineIndex with
    | Some line =>
        let line := if COORD_REGEX_test line then COORD_REGEX_remove line else line in
        let line := trimEnd line in
        let newLine :=
          line ++ js " (" ++ Number_toString (Math_round newX) ++ js ", "
               ++ Number_toString (Math_round newY) ++ js ")" in
        str_join LF (<[Z.to_nat lineIndex := newLine]> lines)
    | None => code
    end
  else code.

(** [updateCodePosition(nodeId, newX, newY)] in a component whose state is
    [nodes] and [code].  Only the [id] and the [lineIndex] of the nodes are
    read: the positions a drag has given them in the meantime play no part. *)
Definition updateCodePosition (nodes : list NodeData) (code : jsstring)
    (nodeId : jsvalue) (newX newY : Q) : jsstring :=
  match find (λ n, bool_decide (node_id n = nodeId)) nodes with
  | None => code
  | Some node => updateCodePosition_line code (node_lineIndex node) newX newY
  end.

(** ** Drawing the links *)

(** The head of the callback of [renderLinks]: the nodes that [find] gives
    for the two ends of a link, or [None] where the callback returns
    [null] because one of them is missing.  What follows in the callback
    draws the line between these two nodes. *)
Definition renderLinks_nodes (nodes : list NodeData) (link : LinkData)
    : option (NodeData * NodeData) :=
  let sourceNode := find (λ n, bool_decide (node_id n = link_source link)) nodes in
  let targetNode := find (λ n, bool_decide (node_id n = link_target link)) nodes in
  match sourceNode, targetNode with
  | Some sourceNode, Some targetNode => Some (sourceNode, targetNode)
  | _, _ => None
  end.

(** * Vocabulary of the statements *)

(** Brings a concatenation to its right-nested form. *)
Ltac norm_app := repeat (rewrite <- app_assoc || rewrite <- app_comm_cons).

(** [number g]: [g] has the shape [-?\d+]. *)
Definition number (g : jsstring) : Prop :=
  ∃ ds, ds ≠ [] ∧ Forall (λ c, is_digit c = true) ds ∧ (g = ds ∨ g = chr "-" :: ds).

Definition spaces (w : jsstring) : Prop := Forall (λ c, is_space c = true) w.

(** [coord_shape m g1 g2]: [m] is a text of the language of [COORD_REGEX]
    and [g1], [g2] are its two numerals. *)
Definition coord_shape (m g1 g2 : jsstring) : Prop :=
  ∃ w1 w2 w3,
    m = chr "(" :: w1 ++ g1 ++ chr "," :: w2 ++ g2 ++ w3 ++ [chr ")"]
    ∧ spaces w1 ∧ spaces w2 ∧ spaces w3 ∧ number g1 ∧ number g2.


(** The character, if there is one, is not white space. *)
Definition nonspace (o : option char) : Prop := from_option (λ c, is_space c = false) True o.

(** [closed_off u]: a match that starts before [u] cannot end inside [u],
    because each non-empty prefix of [u] either does not end with a closing
    parenthesis or holds an opening one. *)
Definition closed_off (u : jsstring) : Prop :=
  ∀ l l', u = l ++ l' → l ≠ [] → last l ≠ Some (chr ")") ∨ chr "(" ∈ l.

(** The canonical suffix that write-back appends. *)
Definition suffix_of_position (x y : Z) : jsstring :=
  js " (" ++ Number_toString x ++ js ", " ++ Number_toString y ++ js ")".

(** The line that [updateCodePosition] writes in the place of [line]. *)
Definition rewritten (line : jsstring) (newX newY : Q) : jsstring :=
  trimEnd (COORD_REGEX_remove line)
  ++ suffix_of_position (Math_round newX) (Math_round newY).

Definition isAttributeType (t : NodeType) : bool :=
  match t with
  | Attribute | KeyAttribute | MultivaluedAttribute | DerivedAttribute => true
  | _ => false
  end.

(** The same node at another position. *)
Definition moved (n : NodeData) (x y : Z) : NodeData :=
  {| node_id := node_id n; node_type := node_type n; node_label := node_label n;
     node_x := x; node_y := y; node_meta := node_meta n;
     node_lineIndex := node_lineIndex n |}.

(** [declaring line]: the line is one of the two kinds that add a node. *)
Definition declaring (line : jsstring) : Prop :=
  skipped line = false ∧ (command line ∈ nodeCommands ∨ command line ∈ specCommands).

(** [placedByDefault line]: the line declares a node and gives it no
    coordinates, so that [getDefaultPos] places it. *)
Definition placedByDefault (line : jsstring) : bool :=
  negb (skipped line)
  && (bool_decide (command line ∈ nodeCommands) || bool_decide (command line ∈ specCommands))
  && bool_decide (coordMatch line = None).

(** The number of lines of [lines] that [getDefaultPos] places. *)
Fixpoint defaultsIn (lines : list jsstring) : nat :=
  match lines with
  | [] => 0
  | line :: lines' => (if placedByDefault line then 1 else 0) + defaultsIn lines'
  end.

(** The state in which the line at index [i] is processed. *)
Definition stateBefore `{Spiral} (lines : list jsstring) (i : nat) : ParseState :=
  parseLines (take i lines).

(** A document given by its lines. *)
Definition document (lines : list jsstring) : jsstring := str_join LF lines.

(** The first positions of the spiral, from [k = 1] on, as IEEE double
    arithmetic gives them; they let the parser run on the example texts. *)
Definition sample_spiral_x (k : nat) : Z :=
  nth k [400; 614; 497; 337; 189; 108; 127; 247; 428; 610; 726; 732; 618]%Z 400%Z.
Definition sample_spiral_y (k : nat) : Z :=
  nth k [300; 446; 550; 570; 493; 342; 165; 27; -21; 44; 205; 409; 584]%Z 300%Z.

(** The spiral of the examples. *)
Definition sample_spiral : Spiral :=
  {| spiral_x := sample_spiral_x; spiral_y := sample_spiral_y |}.

(** Decides a closed decidable proposition by evaluation. *)
Ltac by_evaluation := apply (bool_decide_unpack _); vm_compute; exact I.

Definition sample_document : jsstring := document [js "ent A (10, 20)"; js "ent B"].

Definition node_A : NodeData :=
  {| node_id := Some (js "A"); node_type := Entity; node_label := Some (js "A");
     node_x := 10; node_y := 20; node_meta := None; node_lineIndex := 0 |}.

(** [B] has no coordinates in the text: it sits on the first point of the
    spiral. *)
Definition node_B : NodeData :=
  {| node_id := Some (js "B"); node_type := Entity; node_label := Some (js "B");
     node_x := 614; node_y := 446; node_meta := None; node_lineIndex := 1 |}.

(** A text between double quotes. *)
Definition quoted (s : jsstring) : jsstring := [DQUOTE] ++ s ++ [DQUOTE].


(** [link A B "[total]"]: the marker stands inside the label. *)
Definition total_in_label : jsstring := js "link A B " ++ quoted (js "[total]").

(** [ent A ((1, 2)3, 4)]: one coordinate match, and what is left when it is
    cut out is another one. *)
Definition nested_pair : jsstring := js "ent A ((1, 2)3, 4)".

(** [declares line]: the two tests of the loop body that lead to a
    [newNodes.push], as a boolean. *)
Definition declares (line : jsstring) : bool :=
  negb (skipped line)
  && (bool_decide (command line ∈ nodeCommands) || bool_decide (command line ∈ specCommands)).

(** The indices, counted from [k], of the lines that declare a node. *)
Fixpoint declaringIndices (k : nat) (lines : list jsstring) : list nat :=
  match lines with
  | [] => []
  | line :: lines' => (if declares line then [k] else []) ++ declaringIndices (S k) lines'
  end.

(** What a node is, apart from where it is. *)
Definition shape (n : NodeData) : jsvalue * NodeType * jsvalue * jsvalue * Z :=
  (node_id n, node_type n, node_label n, node_meta n, node_lineIndex n).

(** [indexSuffixed s]: [s] ends with an underscore followed by one or more
    digits, as the ids that the parser builds from a line index do. *)
Definition indexSuffixed (s : jsstring) : bool :=
  match takeWhile is_digit (reverse s), dropWhile is_digit (reverse s) with
  | _ :: _, c :: _ => bool_decide (c = chr "_")
  | _, _ => false
  end.

(** [plainLabel line]: if the line declares a node, the token after the
    command does not end like a suffixed id. *)
Definition plainLabel (line : jsstring) : bool :=
  negb (declares line)
  || match parts line !! 1 with
     | Some token => negb (indexSuffixed token)
     | None => true
     end.

(** The spiral that puts every node at the origin. *)
Definition origin_spiral : Spiral := {| spiral_x := λ _, 0%Z; spiral_y := λ _, 0%Z |}.

(** Two states of the loop that hold the same nodes up to their positions,
    the same links and the same ids. *)
Definition sameShape (st st' : ParseState) : Prop :=
  shape <$> newNodes st = shape <$> newNodes st'
  ∧ newLinks st = newLinks st'
  ∧ existingIds st = existingIds st'.

(** [existingIds] holds the ids of the nodes pushed so far, and no other. *)
Definition idsRecorded (st : ParseState) : Prop :=
  ∀ v, v ∈ existingIds st ↔ v ∈ (node_id <$> newNodes st).

(** An id as the first [k] lines can give it when their labels are plain:
    [undefined], a plain label, or a text suffixed with the index of one of
    those lines. *)
Definition plainOrIndexed (k : nat) (v : jsvalue) : Prop :=
  match v with
  | None => True
  | Some s =>
      indexSuffixed s = false
      ∨ ∃ a j, j < k ∧ s = a ++ js "_" ++ decimal (N.of_nat j)
  end.

(** The invariant of the loop under which ids stay distinct. *)
Definition idsDistinct (k : nat) (st : ParseState) : Prop :=
  idsRecorded st
  ∧ NoDup (node_id <$> newNodes st)
  ∧ Forall (plainOrIndexed k) (node_id <$> newNodes st).

(** Three entities, the second one with coordinates in the text.  The
    spiral places [A] on its first point and [C] on its second. *)
Definition three_entities : jsstring :=
  document [js "ent A"; js "ent B (5, 6)"; js "ent C"].

Definition entity_A : NodeData :=
  {| node_id := Some (js "A"); node_type := Entity; node_label := Some (js "A");
     node_x := 614; node_y := 446; node_meta := None; node_lineIndex := 0 |}.

Definition entity_B : NodeData :=
  {| node_id := Some (js "B"); node_type := Entity; node_label := Some (js "B");
     node_x := 5; node_y := 6; node_meta := None; node_lineIndex := 1 |}.

Definition entity_C : NodeData :=
  {| node_id := Some (js "C"); node_type := Entity; node_label := Some (js "C");
     node_x := 497; node_y := 550; node_meta := None; node_lineIndex := 2 |}.

(** An entity and an attribute that names it as its owner. *)
Definition owned_attribute : jsstring := document [js "ent A"; js "att Name -> A"].

(** The link of the shorthand in [owned_attribute]. *)
Definition owner_link : LinkData :=
  {| link_source := Some (js "A"); link_target := Some (js "Name_1");
     link_label := []; link_style := Solid |}.

(** * Properties *)

(** ** Splitting and joining *)

Section SplitJoin.

Variable sep : char.

Lemma split_acc_not_nil cur s : split_acc sep cur s ≠ [].
Proof. revert cur; induction s as [|c s IH]; intros cur; simpl; [done|]. by case_match. Qed.

Lemma split_acc_app cur s rest :
  sep ∉ s → split_acc sep cur (s ++ rest) = split_acc sep (reverse s ++ cur) rest.
Proof.
  revert cur; induction s as [|c s IH]; intros cur Hs; simpl; [done|].
  apply not_elem_of_cons in Hs as [Hc Hs].
  destruct (N.eqb_spec c sep) as [->|_]; [done|].
  rewrite IH by done. by rewrite reverse_cons, <- app_assoc.
Qed.

Lemma split_acc_join cur l :
  l ≠ [] → Forall (λ s, sep ∉ s) l → sep ∉ cur →
  split_acc sep cur (str_join sep l) = match l with
                                       | s :: l' => (reverse cur ++ s) :: l'
                                       | [] => []
                                       end.
Proof.
  revert cur; induction l as [|s l IH]; intros cur Hne Hl Hcur; [done|].
  apply Forall_cons in Hl as [Hs Hl].
  destruct l as [|s' l].
  - simpl. rewrite <- (app_nil_r s) at 1. rewrite split_acc_app by done.
    simpl. by rewrite reverse_app, reverse_involutive.
  - change (str_join sep (s :: s' :: l)) with (s ++ sep :: str_join sep (s' :: l)).
    rewrite split_acc_app by done. simpl. rewrite N.eqb_refl.
    rewrite reverse_app, reverse_involutive. f_equal.
    rewrite IH; [done|done|done|]. apply not_elem_of_nil.
Qed.

(** Splitting what was joined gives the pieces back. *)
Lemma split_join l :
  l ≠ [] → Forall (λ s, sep ∉ s) l → str_split sep (str_join sep l) = l.
Proof.
  intros Hne Hl. unfold str_split. rewrite split_acc_join; [|done|done|apply not_elem_of_nil].
  by destruct l.
Qed.

Lemma join_split_acc cur s : str_join sep (split_acc sep cur s) = reverse cur ++ s.
Proof.
  revert cur; induction s as [|c s IH]; intros cur; simpl.
  - by rewrite app_nil_r.
  - destruct (N.eqb_spec c sep) as [->|_].
    + pose proof (split_acc_not_nil [] s) as Hne. specialize (IH []).
      destruct (split_acc sep [] s); [done|]. simpl in *. by rewrite IH.
    + rewrite IH, reverse_cons, <- app_assoc. done.
Qed.

(** Joining what was split gives the text back. *)
Lemma join_split s : str_join sep (str_split sep s) = s.
Proof. apply join_split_acc. Qed.

Lemma split_acc_no_sep cur s :
  sep ∉ cur → Forall (λ x, sep ∉ x) (split_acc sep cur s).
Proof.
  revert cur; induction s as [|c s IH]; intros cur Hcur; simpl.
  - constructor; [|done]. by rewrite elem_of_reverse.
  - destruct (N.eqb_spec c sep) as [->|Hc].
    + constructor; [by rewrite elem_of_reverse|]. apply IH, not_elem_of_nil.
    + apply IH. by apply not_elem_of_cons.
Qed.

(** No piece of a split contains the separator. *)
Lemma split_no_sep s : Forall (λ x, sep ∉ x) (str_split sep s).
Proof. apply split_acc_no_sep, not_elem_of_nil. Qed.

End SplitJoin.

(** ** Runs of a character class *)

Section Runs.

Variable p : char → bool.

Lemma take_drop_while s : takeWhile p s ++ dropWhile p s = s.
Proof. induction s as [|c s IH]; simpl; [done|]. destruct (p c); simpl; by f_equal. Qed.

Lemma takeWhile_Forall s : Forall (λ c, p c = true) (takeWhile p s).
Proof.
  induction s as [|c s IH]; simpl; [done|].
  destruct (p c) eqn:E; [by constructor | done].
Qed.

Lemma dropWhile_head s : from_option (λ c, p c = false) True (head (dropWhile p s)).
Proof. induction s as [|c s IH]; simpl; [done|]. destruct (p c) eqn:E; simpl; done. Qed.

(** A run of the class followed by something outside it is taken whole. *)
Lemma takeWhile_app w s :
  Forall (λ c, p c = true) w → from_option (λ c, p c = false) True (head s) →
  takeWhile p (w ++ s) = w.
Proof.
  intros Hw Hs. induction Hw as [|c w Hc Hw IH]; simpl.
  - destruct s as [|c s]; simpl in *; [done|]. by rewrite Hs.
  - by rewrite Hc, IH.
Qed.

Lemma dropWhile_app w s :
  Forall (λ c, p c = true) w → dropWhile p (w ++ s) = dropWhile p s.
Proof. intros Hw. induction Hw as [|c w Hc Hw IH]; simpl; [done|]. by rewrite Hc. Qed.

Lemma dropWhile_stop s :
  from_option (λ c, p c = false) True (head s) → dropWhile p s = s.
Proof. destruct s as [|c s]; simpl; [done|]. by intros ->. Qed.

Lemma elem_of_dropWhile c s : c ∈ dropWhile p s → c ∈ s.
Proof. intros H. rewrite <- (take_drop_while s). apply elem_of_app. by right. Qed.

Lemma dropWhile_all s : Forall (λ c, p c = true) s → dropWhile p s = [].
Proof. intros Hs. induction Hs as [|c s Hc Hs IH]; simpl; [done|]. by rewrite Hc. Qed.

End Runs.

(** ** Decimal numerals *)

Lemma uint_chars_digits d : Forall (λ c, is_digit c = true) (uint_chars d).
Proof. induction d; simpl; by constructor. Qed.

Lemma digits_value_uint_acc d (acc : positive) :
  foldl (λ acc c, 10 * acc + digit_value c)%N (N.pos acc) (uint_chars d)
  = N.pos (Pos.of_uint_acc d acc).
Proof.
  revert acc; induction d; intros acc; simpl; [done|..];
    (etrans; [|apply IHd]); f_equal; unfold digit_value; simpl; lia.
Qed.

Lemma digits_value_uint d : digits_value (uint_chars d) = N.of_uint d.
Proof.
  unfold digits_value, N.of_uint.
  induction d; simpl; [done|done|..]; apply digits_value_uint_acc.
Qed.

(** Reading the digits of [n] gives [n] back. *)
Lemma digits_value_decimal n : digits_value (decimal n) = n.
Proof. unfold decimal. rewrite digits_value_uint. apply DecimalN.Unsigned.of_to. Qed.

Lemma decimal_digits n : Forall (λ c, is_digit c = true) (decimal n).
Proof. apply uint_chars_digits. Qed.

Lemma decimal_not_nil n : decimal n ≠ [].
Proof.
  intros E. pose proof (digits_value_decimal n) as H. rewrite E in H.
  cbn in H. subst n. discriminate E.
Qed.

Lemma decimal_inj n m : decimal n = decimal m → n = m.
Proof. intros E. by rewrite <- (digits_value_decimal n), E, digits_value_decimal. Qed.

Lemma Number_toString_number z : number (Number_toString z).
Proof.
  exists (decimal (Z.abs_N z)). split; [apply decimal_not_nil|].
  split; [apply decimal_digits|]. unfold Number_toString. case_match; auto.
Qed.

(** A printed integer is read back as itself. *)
Lemma parseInt_Number_toString z : parseInt (Number_toString z) = z.
Proof.
  unfold Number_toString. destruct (Z.ltb_spec z 0) as [Hz|Hz].
  - simpl. rewrite digits_value_decimal. lia.
  - pose proof (decimal_digits (Z.abs_N z)) as Hd.
    pose proof (digits_value_decimal (Z.abs_N z)) as Hv.
    pose proof (decimal_not_nil (Z.abs_N z)) as Hn.
    destruct (decimal (Z.abs_N z)) as [|c ds]; [done|].
    apply Forall_cons in Hd as [Hc _]. unfold parseInt.
    destruct (N.eqb_spec c (chr "-")) as [->|_]; [done|].
    rewrite Hv. lia.
Qed.

(** [Math.round] leaves an integer alone. *)
Lemma Math_round_Z z : Math_round (inject_Z z) = z.
Proof.
  unfold Math_round.
  assert (inject_Z z + (1 # 2) == (2 * z + 1) # 2)%Q as ->.
  { unfold Qeq, Qplus, inject_Z; simpl. lia. }
  unfold Qfloor. symmetry. apply Z.div_unique with (r := 1%Z); lia.
Qed.

(** ** The coordinate pattern *)

Lemma space_not_digit c : is_space c = true → is_digit c = false.
Proof.
  unfold is_space, is_digit. intros H. apply andb_false_iff.
  rewrite !orb_true_iff, !andb_true_iff, !N.leb_le, !N.eqb_eq in H.
  rewrite N.leb_gt, N.leb_gt. lia.
Qed.

Lemma digit_not_space c : is_digit c = true → is_space c = false.
Proof.
  intros H. destruct (is_space c) eqn:E; [|done].
  apply space_not_digit in E. congruence.
Qed.

Lemma expect_Some a s s' : expect a s = Some s' ↔ s = a :: s'.
Proof.
  destruct s as [|c s]; simpl; [done|].
  destruct (N.eqb_spec c a) as [->|Hc]; split; intros H; simplify_eq; done.
Qed.

Lemma expect_cons a s : expect a (a :: s) = Some s.
Proof. by apply expect_Some. Qed.

#[local] Arguments chr : simpl never.
#[local] Arguments expect : simpl never.
#[local] Arguments skip_spaces : simpl never.
#[local] Arguments signed_digits : simpl never.

Lemma number_head g :
  number g → ∃ c g', g = c :: g' ∧ is_space c = false ∧ (c = chr "-" ∨ is_digit c = true).
Proof.
  intros (ds & Hne & Hds & [->| ->]).
  - destruct Hds as [|c ds Hc _]; [done|]. exists c, ds.
    split_and!; [done|by apply digit_not_space|by right].
  - exists (chr "-"), ds. split_and!; [done|done|by left].
Qed.

Lemma signed_digits_sound s g rest :
  signed_digits s = Some (g, rest) →
  s = g ++ rest ∧ number g ∧ from_option (λ c, is_digit c = false) True (head rest).
Proof.
  unfold signed_digits. intros H.
  destruct (expect (chr "-") s) as [s'|] eqn:E.
  - apply expect_Some in E as ->.
    pose proof (take_drop_while is_digit s') as Htd.
    pose proof (takeWhile_Forall is_digit s') as Hf.
    destruct (takeWhile is_digit s') as [|c ds] eqn:Et; [done|]. simplify_eq.
    split_and!; [by rewrite <- Htd at 1 | | apply dropWhile_head].
    exists (c :: ds). by split_and!; [|..|right].
  - pose proof (take_drop_while is_digit s) as Htd.
    pose proof (takeWhile_Forall is_digit s) as Hf.
    destruct (takeWhile is_digit s) as [|c ds] eqn:Et; [done|]. simplify_eq.
    split_and!; [by rewrite <- Htd at 1 | | apply dropWhile_head].
    exists (c :: ds). by split_and!; [|..|left].
Qed.

Lemma signed_digits_complete g rest :
  number g → from_option (λ c, is_digit c = false) True (head rest) →
  signed_digits (g ++ rest) = Some (g, rest).
Proof.
  intros (ds & Hne & Hds & Hg) Hrest. unfold signed_digits.
  destruct Hg as [->| ->].
  - destruct Hds as [|c ds Hc Hds]; [done|].
    assert (expect (chr "-") ((c :: ds) ++ rest) = None) as ->.
    { change ((c :: ds) ++ rest) with (c :: (ds ++ rest)). unfold expect.
      destruct (N.eqb_spec c (chr "-")) as [->|_]; [by vm_compute in Hc | done]. }
    rewrite takeWhile_app, dropWhile_app by (done || by constructor).
    by rewrite (dropWhile_stop _ rest).
  - simpl. rewrite takeWhile_app, dropWhile_app by done.
    rewrite (dropWhile_stop _ rest) by done. by destruct ds.
Qed.

Lemma skip_spaces_split s :
  ∃ w, s = w ++ skip_spaces s ∧ spaces w.
Proof.
  exists (takeWhile is_space s). split; [symmetry; apply take_drop_while|].
  apply takeWhile_Forall.
Qed.

Lemma skip_spaces_number w g rest :
  spaces w → number g → skip_spaces (w ++ g ++ rest) = g ++ rest.
Proof.
  intros Hw Hg. unfold skip_spaces. rewrite dropWhile_app by done.
  apply number_head in Hg as (c & g' & -> & Hc & _). apply dropWhile_stop. exact Hc.
Qed.

(** Whatever [COORD_REGEX_at] accepts is a text of the pattern ... *)
Lemma COORD_REGEX_at_sound s g1 g2 rest :
  COORD_REGEX_at s = Some (g1, g2, rest) → ∃ m, s = m ++ rest ∧ coord_shape m g1 g2.
Proof.
  unfold COORD_REGEX_at. intros H.
  destruct (expect (chr "(") s) as [s1|] eqn:E1; simpl in H; [|done].
  apply expect_Some in E1 as ->.
  destruct (skip_spaces_split s1) as (w1 & Hs1 & Hw1).
  destruct (signed_digits (skip_spaces s1)) as [[g1' s2]|] eqn:E2; simpl in H; [|done].
  apply signed_digits_sound in E2 as (Es2 & Hg1 & _).
  destruct (expect (chr ",") s2) as [s3|] eqn:E3; simpl in H; [|done].
  apply expect_Some in E3 as ->.
  destruct (skip_spaces_split s3) as (w2 & Hs3 & Hw2).
  destruct (signed_digits (skip_spaces s3)) as [[g2' s4]|] eqn:E4; simpl in H; [|done].
  apply signed_digits_sound in E4 as (Es4 & Hg2 & _).
  destruct (skip_spaces_split s4) as (w3 & Hs4 & Hw3).
  destruct (expect (chr ")") (skip_spaces s4)) as [s5|] eqn:E5; simpl in H; [|done].
  apply expect_Some in E5. simplify_eq.
  exists (chr "(" :: w1 ++ g1 ++ chr "," :: w2 ++ g2 ++ w3 ++ [chr ")"]). split.
  - rewrite Hs1, Es2, Hs3, Es4, Hs4, E5. by norm_app.
  - by exists w1, w2, w3.
Qed.

(** ... and every text of the pattern is accepted, whatever follows it. *)
Lemma COORD_REGEX_at_complete m g1 g2 rest :
  coord_shape m g1 g2 → COORD_REGEX_at (m ++ rest) = Some (g1, g2, rest).
Proof.
  intros (w1 & w2 & w3 & -> & Hw1 & Hw2 & Hw3 & Hg1 & Hg2). unfold COORD_REGEX_at.
  norm_app. rewrite ?expect_cons. simpl.
  rewrite skip_spaces_number by done.
  rewrite signed_digits_complete by done. simpl.
  rewrite ?expect_cons. simpl.
  rewrite skip_spaces_number by done.
  rewrite signed_digits_complete; [|done|].
  - simpl. unfold skip_spaces. rewrite dropWhile_app by done. simpl.
    by rewrite ?expect_cons.
  - destruct Hw3 as [|c w3 Hc _]; simpl; [done|]. by apply space_not_digit.
Qed.

(** The matched text opens with its only opening parenthesis and closes
    with a closing one. *)
Lemma coord_shape_parens m g1 g2 :
  coord_shape m g1 g2 → ∃ b, m = chr "(" :: b ++ [chr ")"] ∧ chr "(" ∉ b.
Proof.
  intros (w1 & w2 & w3 & -> & Hw1 & Hw2 & Hw3 & Hg1 & Hg2).
  exists (w1 ++ g1 ++ chr "," :: w2 ++ g2 ++ w3). split.
  { by norm_app. }
  assert (∀ w, spaces w → chr "(" ∉ w) as Hsp.
  { intros w Hw Hin. eapply Forall_forall in Hw; [|done]. by vm_compute in Hw. }
  assert (∀ g, number g → chr "(" ∉ g) as Hnum.
  { intros g (ds & _ & Hds & Hg) Hin.
    assert (chr "(" ∈ ds) as Hin'.
    { destruct Hg as [->| ->]; [done|]. apply elem_of_cons in Hin as [?|?]; done. }
    eapply Forall_forall in Hds; [|done]. by vm_compute in Hds. }
  rewrite !elem_of_app, elem_of_cons, !elem_of_app.
  intros [H|[H|[H|[H|[H|H]]]]];
    first [by apply Hsp in H | by apply Hnum in H | by vm_compute in H].
Qed.

(** [LABEL_REGEX_at] accepts exactly a double quote, a non-empty run free of
    double quotes, and a double quote. *)
Lemma LABEL_REGEX_at_spec s body rest :
  LABEL_REGEX_at s = Some (body, rest)
  ↔ s = DQUOTE :: body ++ DQUOTE :: rest ∧ body ≠ [] ∧ DQUOTE ∉ body.
Proof.
  unfold LABEL_REGEX_at. set (p := λ c : char, negb (c =? DQUOTE)%N).
  assert (∀ w, Forall (λ c, p c = true) w ↔ DQUOTE ∉ w) as Hp.
  { intros w. rewrite Forall_forall. unfold p. split.
    - intros Hw Hin. specialize (Hw _ Hin). by rewrite N.eqb_refl in Hw.
    - intros Hw c Hin. destruct (N.eqb_spec c DQUOTE) as [->|]; done. }
  split.
  - destruct (expect DQUOTE s) as [s1|] eqn:E1; simpl; [|done].
    apply expect_Some in E1 as ->.
    pose proof (take_drop_while p s1) as Htd.
    pose proof (takeWhile_Forall p s1) as Hf.
    destruct (takeWhile p s1) as [|c b] eqn:Et; [done|].
    destruct (expect DQUOTE (dropWhile p s1)) as [s2|] eqn:E2; simpl; [|done].
    apply expect_Some in E2. intros ?; simplify_eq.
    split_and!; [by rewrite <- Htd, E2|done|by apply Hp].
  - intros (-> & Hne & Hb%Hp). rewrite expect_cons. simpl.
    rewrite takeWhile_app, dropWhile_app by (done || by (simpl; unfold p; rewrite N.eqb_refl)).
    rewrite (dropWhile_stop p) by (simpl; unfold p; by rewrite N.eqb_refl).
    rewrite expect_cons. by destruct body.
Qed.

(** ** Leftmost matches *)

Section RegexExec.

Context {G : Type} (at_ : jsstring → option (G * jsstring)).

Lemma regex_exec_Some s before g rest :
  regex_exec at_ s = Some (before, g, rest) →
  ∃ tl, s = before ++ tl ∧ at_ tl = Some (g, rest).
Proof.
  revert before; induction s as [|c s IH]; intros before; simpl.
  - destruct (at_ []) as [[g' r']|] eqn:E; [|done]. intros ?; simplify_eq. by exists [].
  - destruct (at_ (c :: s)) as [[g' r']|] eqn:E.
    + intros ?; simplify_eq. by exists (c :: s).
    + destruct (regex_exec at_ s) as [[[b' g'] r']|]; [|done].
      intros ?; simplify_eq. destruct (IH b' eq_refl) as (tl & -> & Htl).
      by exists tl.
Qed.

(** The match found is the leftmost one: none starts inside [before]. *)
Lemma regex_exec_leftmost s before g rest k :
  regex_exec at_ s = Some (before, g, rest) → k < length before → at_ (drop k s) = None.
Proof.
  revert before k; induction s as [|c s IH]; intros before k; simpl.
  - destruct (at_ []) as [[g' r']|] eqn:E; [|done]. intros ?; simplify_eq. simpl. lia.
  - destruct (at_ (c :: s)) as [[g' r']|] eqn:E.
    + intros ?; simplify_eq. simpl. lia.
    + destruct (regex_exec at_ s) as [[[b' g'] r']|] eqn:Es; [|done].
      intros ? Hk; simplify_eq. destruct k as [|k]; [done|].
      simpl in *. apply (IH b'); [done|lia].
Qed.

Lemma regex_exec_here s g rest :
  at_ s = Some (g, rest) → regex_exec at_ s = Some ([], g, rest).
Proof. intros E. destruct s; simpl; by rewrite E. Qed.

Lemma regex_exec_next c s :
  at_ (c :: s) = None →
  regex_exec at_ (c :: s)
  = match regex_exec at_ s with
    | Some (before, g, rest) => Some (c :: before, g, rest)
    | None => None
    end.
Proof. intros E. simpl. by rewrite E. Qed.

End RegexExec.

Lemma COORD_REGEX_exec_Some s before g1 g2 rest :
  COORD_REGEX_exec s = Some (before, (g1, g2), rest) →
  ∃ m, s = before ++ m ++ rest ∧ coord_shape m g1 g2.
Proof.
  intros H. apply regex_exec_Some in H as (tl & -> & H).
  apply COORD_REGEX_at_sound in H as (m & -> & Hm). by exists m.
Qed.

Lemma elem_of_COORD_REGEX_remove c s : c ∈ COORD_REGEX_remove s → c ∈ s.
Proof.
  unfold COORD_REGEX_remove.
  destruct (COORD_REGEX_exec s) as [[[before [g1 g2]] rest]|] eqn:E; [|done].
  apply COORD_REGEX_exec_Some in E as (m & -> & _).
  rewrite !elem_of_app. tauto.
Qed.

Lemma elem_of_trimEnd c s : c ∈ trimEnd s → c ∈ s.
Proof.
  unfold trimEnd. rewrite elem_of_reverse. intros H%elem_of_dropWhile.
  by apply elem_of_reverse.
Qed.

(** ** Write-back: the frame *)

Lemma COORD_REGEX_test_remove line :
  (if COORD_REGEX_test line then COORD_REGEX_remove line else line) = COORD_REGEX_remove line.
Proof.
  unfold COORD_REGEX_test, COORD_REGEX_remove.
  by destruct (COORD_REGEX_exec line) as [[[??]?]|].
Qed.

Lemma LF_not_in_Number_toString z : LF ∉ Number_toString z.
Proof.
  assert (LF ∉ decimal (Z.abs_N z)) as Hd.
  { intros Hin. pose proof (decimal_digits (Z.abs_N z)) as Hf.
    eapply Forall_forall in Hf; [|done]. by vm_compute in Hf. }
  unfold Number_toString. case_match; [|done].
  apply not_elem_of_cons. split; [by vm_compute|done].
Qed.

Lemma LF_not_in_rewritten line newX newY : LF ∉ line → LF ∉ rewritten line newX newY.
Proof.
  intros Hline. unfold rewritten, suffix_of_position. rewrite !elem_of_app.
  intros [H|[H|[H|[H|[H|H]]]]].
  - by apply elem_of_trimEnd, elem_of_COORD_REGEX_remove in H.
  - by vm_compute in H; repeat (apply elem_of_cons in H as [H|H]; [done|]); inversion H.
  - by apply LF_not_in_Number_toString in H.
  - by vm_compute in H; repeat (apply elem_of_cons in H as [H|H]; [done|]); inversion H.
  - by apply LF_not_in_Number_toString in H.
  - by vm_compute in H; repeat (apply elem_of_cons in H as [H|H]; [done|]); inversion H.
Qed.

Lemma updateCodePosition_line_in_range code lineIndex newX newY line :
  (0 ≤ lineIndex)%Z →
  str_split LF code !! Z.to_nat lineIndex = Some line →
  str_split LF (updateCodePosition_line code lineIndex newX newY)
  = <[Z.to_nat lineIndex := rewritten line newX newY]> (str_split LF code).
Proof.
  intros Hpos Hline. unfold updateCodePosition_line.
  pose proof (lookup_lt_Some _ _ _ Hline) as Hlt.
  replace ((0 <=? lineIndex)%Z && (lineIndex <? Z.of_nat (length (str_split LF code)))%Z)
    with true by (symmetry; apply andb_true_iff; split; [apply Z.leb_le|apply Z.ltb_lt]; lia).
  rewrite Hline, COORD_REGEX_test_remove.
  change (trimEnd (COORD_REGEX_remove line) ++ _) with (rewritten line newX newY).
  apply split_join.
  - intros E. apply (f_equal length) in E. rewrite length_insert in E.
    simpl in E. lia.
  - apply Forall_insert; [apply split_no_sep|].
    apply LF_not_in_rewritten.
    pose proof (split_no_sep LF code) as Hall.
    eapply Forall_lookup_1 in Hall; done.
Qed.

Lemma updateCodePosition_line_out_of_range code lineIndex newX newY :
  (lineIndex < 0 ∨ Z.of_nat (length (str_split LF code)) ≤ lineIndex)%Z →
  updateCodePosition_line code lineIndex newX newY = code.
Proof.
  intros Hout. unfold updateCodePosition_line.
  replace ((0 <=? lineIndex)%Z && (lineIndex <? Z.of_nat (length (str_split LF code)))%Z)
    with false; [done|].
  symmetry. apply andb_false_iff. rewrite Z.leb_gt, Z.ltb_ge. lia.
Qed.

(** C2.  Write-back on an in-range line index rewrites that line and no
    other: the line at the index loses its first coordinate match (when it
    has one) and its trailing white space and gains the suffix
    [" (" + round(x) + ", " + round(y) + ")"]; the document keeps its number
    of lines and every other line is the same text as before.  The rounded
    position is taken among the safe integers, where the numerals of the
    model are the ones the program prints. *)
Theorem writeback_frame (nodes : list NodeData) (code : jsstring) (nodeId : jsvalue)
    (newX newY : Q) (node : NodeData) (line : jsstring) :
  find (λ n, bool_decide (node_id n = nodeId)) nodes = Some node →
  (0 ≤ node_lineIndex node)%Z →
  str_split LF code !! Z.to_nat (node_lineIndex node) = Some line →
  Number_isSafeInteger (Math_round newX) → Number_isSafeInteger (Math_round newY) →
  let code' := updateCodePosition nodes code nodeId newX newY in
  str_split LF code' !! Z.to_nat (node_lineIndex node)
    = Some (trimEnd (COORD_REGEX_remove line)
            ++ js " (" ++ Number_toString (Math_round newX) ++ js ", "
            ++ Number_toString (Math_round newY) ++ js ")")
  ∧ length (str_split LF code') = length (str_split LF code)
  ∧ ∀ j, j ≠ Z.to_nat (node_lineIndex node) →
         str_split LF code' !! j = str_split LF code !! j.
Proof.
  intros Hfind Hpos Hline _ _ code'. subst code'. unfold updateCodePosition.
  rewrite Hfind, (updateCodePosition_line_in_range _ _ _ _ line) by done.
  pose proof (lookup_lt_Some _ _ _ Hline) as Hlt.
  split_and!.
  - by rewrite list_lookup_insert_eq.
  - by rewrite length_insert.
  - intros j Hj. by rewrite list_lookup_insert_ne.
Qed.

(** C5.  Write-back on a line index outside the document (negative, or at
    or beyond the number of lines) returns the document as it is. *)
Theorem writeback_out_of_range (nodes : list NodeData) (code : jsstring)
    (nodeId : jsvalue) (newX newY : Q) (node : NodeData) :
  find (λ n, bool_decide (node_id n = nodeId)) nodes = Some node →
  (node_lineIndex node < 0 ∨ Z.of_nat (length (str_split LF code)) ≤ node_lineIndex node)%Z →
  updateCodePosition nodes code nodeId newX newY = code.
Proof.
  intros Hfind Hout. unfold updateCodePosition. rewrite Hfind.
  by apply updateCodePosition_line_out_of_range.
Qed.

(** ** Substrings *)

Lemma startsWith_spec s p : startsWith s p = true ↔ ∃ post, s = p ++ post.
Proof.
  revert s; induction p as [|a p IH]; intros s; simpl.
  - split; [by exists s|done].
  - destruct s as [|c s]; simpl.
    + split; [done|]. by intros (post & ?).
    + rewrite andb_true_iff, N.eqb_eq, IH. split.
      * intros (-> & post & ->). by exists post.
      * intros (post & ?); simplify_eq. split; [done|by exists post].
Qed.


(** ** The loop *)

Section ForEach.

Context {S A : Type} (f : S → nat → A → S).

Lemma forEach_app st k l1 l2 :
  forEach f st k (l1 ++ l2) = forEach f (forEach f st k l1) (k + length l1) l2.
Proof.
  revert st k; induction l1 as [|a l1 IH]; intros st k; simpl.
  - by rewrite Nat.add_0_r.
  - rewrite IH. f_equal. lia.
Qed.

(** Replacing an element by one on which the body acts alike changes
    nothing. *)
Lemma forEach_insert st k l i a a' :
  l !! i = Some a → (∀ st, f st (k + i) a' = f st (k + i) a) →
  forEach f st k (<[i:=a']> l) = forEach f st k l.
Proof.
  revert st k i; induction l as [|b l IH]; intros st k i Hi Hf; [done|].
  destruct i as [|i]; simpl in *.
  - simplify_eq. rewrite Nat.add_0_r in Hf. by rewrite Hf.
  - apply IH; [done|]. intros st'.
    replace (Datatypes.S k + i) with (k + Datatypes.S i) by lia. apply Hf.
Qed.

End ForEach.

Section ParserFacts.

Context `{Spiral}.

Lemma processLine_skipped st index line :
  skipped line = true → processLine st index line = st.
Proof. unfold processLine. by intros ->. Qed.

Lemma processLine_unrecognized st index line :
  command line ∉ commands → processLine st index line = st.
Proof.
  unfold commands. rewrite !elem_of_app, list_elem_of_singleton. intros Hc.
  unfold processLine. destruct (skipped line); [done|].
  rewrite !bool_decide_eq_false_2 by tauto. done.
Qed.


(** C8.  A line whose command (the first token of the coordinate-stripped
    line, lower-cased) is not a recognised keyword leaves every accumulator
    of the parse as it was, and the parse of the document is the parse of
    the document with that line blanked. *)
Theorem unrecognized_line_ignored (code : jsstring) (i : nat) (line : jsstring) :
  str_split LF code !! i = Some line →
  command line ∉ commands →
  (∀ st, processLine st i line = st)
  ∧ parseCode (str_join LF (<[i:=[]]> (str_split LF code))) = parseCode code.
Proof.
  intros Hline Hcmd. split; [intros st; by apply processLine_unrecognized|].
  unfold parseCode, parseLines. rewrite split_join.
  - rewrite (forEach_insert _ _ _ _ _ line); [done|done|].
    intros st. rewrite (processLine_unrecognized _ _ line) by done.
    by apply processLine_skipped.
  - intros E. apply (f_equal length) in E. rewrite length_insert in E.
    apply lookup_lt_Some in Hline. simpl in E. lia.
  - apply Forall_insert; [apply split_no_sep|apply not_elem_of_nil].
Qed.

(** What a [link] line does, whatever the nodes declared so far. *)
Lemma declareLink_links st lwc parts :
  newNodes (declareLink st lwc parts) = newNodes st
  ∧ ((truthy (parts !! 1) && truthy (parts !! 2) = true →
      ∃ l, newLinks (declareLink st lwc parts) = newLinks st ++ [l]
           ∧ link_source l = parts !! 1 ∧ link_target l = parts !! 2)
     ∧ (truthy (parts !! 1) && truthy (parts !! 2) = false →
        newLinks (declareLink st lwc parts) = newLinks st)).
Proof.
  unfold declareLink.
  destruct (truthy (parts !! 1) && truthy (parts !! 2)); simpl.
  - split_and!; [done| |done]. intros _. eexists. split_and!; done.
  - split_and!; done.
Qed.



End ParserFacts.

(** ** Trimming *)

Lemma trimStart_app w s : spaces w → trimStart (w ++ s) = trimStart s.
Proof. apply dropWhile_app. Qed.

Lemma trimStart_stop s : nonspace (head s) → trimStart s = s.
Proof. apply dropWhile_stop. Qed.

Lemma trimEnd_app s w : spaces w → trimEnd (s ++ w) = trimEnd s.
Proof.
  intros Hw. unfold trimEnd. rewrite reverse_app, dropWhile_app; [done|].
  by apply Forall_reverse.
Qed.

Lemma trimEnd_stop s : nonspace (last s) → trimEnd s = s.
Proof.
  intros Hs. unfold trimEnd. rewrite dropWhile_stop, reverse_involutive; [done|].
  by rewrite head_reverse.
Qed.

Lemma trimEnd_prefix a b : b ≠ [] → nonspace (last b) → trimEnd (a ++ b) = a ++ b.
Proof.
  intros Hb Hl. apply trimEnd_stop. rewrite last_app.
  apply last_is_Some in Hb as [c Hc]. by rewrite Hc in *.
Qed.

(** A text with a core free of white space at both ends. *)
Lemma trim_core w1 core w2 :
  spaces w1 → spaces w2 → core ≠ [] → nonspace (head core) → nonspace (last core) →
  trim (w1 ++ core ++ w2) = core ∧ trimEnd (w1 ++ core ++ w2) = w1 ++ core.
Proof.
  intros Hw1 Hw2 Hne Hh Hl. unfold trim. rewrite trimStart_app by done.
  rewrite trimStart_stop.
  - rewrite !app_assoc, !trimEnd_app by done.
    rewrite trimEnd_stop by done. by rewrite trimEnd_prefix.
  - rewrite head_app. by destruct core.
Qed.

Lemma trimStart_split s : ∃ w, s = w ++ trimStart s ∧ spaces w ∧ nonspace (head (trimStart s)).
Proof.
  exists (takeWhile is_space s). split_and!.
  - symmetry. apply take_drop_while.
  - apply takeWhile_Forall.
  - apply dropWhile_head.
Qed.

Lemma trimEnd_split s : ∃ w, s = trimEnd s ++ w ∧ spaces w ∧ nonspace (last (trimEnd s)).
Proof.
  destruct (trimStart_split (reverse s)) as (w & Hs & Hw & Hh).
  exists (reverse w). split_and!.
  - apply (f_equal reverse) in Hs. by rewrite reverse_involutive, reverse_app in Hs.
  - by apply Forall_reverse.
  - unfold trimEnd. by rewrite last_reverse.
Qed.

(** Every text is its trimmed core between two runs of white space. *)
Lemma trim_split s :
  ∃ w1 w2, s = w1 ++ trim s ++ w2 ∧ spaces w1 ∧ spaces w2
           ∧ (trim s ≠ [] → nonspace (head (trim s)) ∧ nonspace (last (trim s))).
Proof.
  destruct (trimStart_split s) as (w1 & Hs & Hw1 & Hh).
  destruct (trimEnd_split (trimStart s)) as (w2 & Hs2 & Hw2 & Hl).
  exists w1, w2. fold (trim s) in *. split_and!; try done.
  - by rewrite <- Hs2.
  - intros Hne. split; [|done]. rewrite Hs2, head_app in Hh. by destruct (trim s).
Qed.

(** Trimming is idempotent. *)
Lemma trim_trim s : trim (trim s) = trim s.
Proof.
  destruct (decide (trim s = [])) as [->|Hne]; [done|].
  destruct (trim_split s) as (_ & _ & _ & _ & _ & Hends).
  destruct (Hends Hne) as [Hh Hl].
  pose proof (trim_core [] (trim s) [] (Forall_nil_2 _) (Forall_nil_2 _) Hne Hh Hl) as [Ht _].
  by rewrite app_nil_r in Ht.
Qed.

Lemma trim_spaces w : spaces w → trim w = [].
Proof.
  intros Hw. unfold trim, trimStart. by rewrite dropWhile_all.
Qed.

(** White space around a text does not change what [trim] leaves. *)
Lemma trim_around w1 s w2 : spaces w1 → spaces w2 → trim (w1 ++ s ++ w2) = trim s.
Proof.
  intros Hw1 Hw2. destruct (trim_split s) as (v1 & v2 & Hs & Hv1 & Hv2 & Hends).
  destruct (decide (trim s = [])) as [E|Hne].
  - rewrite E. apply trim_spaces. rewrite Hs, E. simpl.
    by repeat apply Forall_app_2.
  - destruct (Hends Hne) as [Hh Hl].
    rewrite Hs at 1.
    replace (w1 ++ (v1 ++ trim s ++ v2) ++ w2) with ((w1 ++ v1) ++ trim s ++ (v2 ++ w2))
      by (by norm_app).
    apply trim_core; try done; by apply Forall_app_2.
Qed.

(** ** Matches and concatenation *)

Lemma closed_off_spaces w : spaces w → closed_off w.
Proof.
  intros Hw l l' -> Hl. left. intros Hlast.
  apply Forall_app in Hw as [Hw _].
  apply last_Some_elem_of in Hlast. eapply Forall_forall in Hw; [|done].
  by vm_compute in Hw.
Qed.

Lemma closed_off_suffix t : closed_off (chr " " :: chr "(" :: t).
Proof.
  intros l l' E Hl. destruct l as [|c1 [|c2 l]]; [done|..]; simpl in E; simplify_eq.
  - left. vm_compute. intros [=].
  - right. set_solver.
Qed.

Lemma COORD_REGEX_at_extend tl u g1 g2 r :
  COORD_REGEX_at tl = Some (g1, g2, r) → COORD_REGEX_at (tl ++ u) = Some (g1, g2, r ++ u).
Proof.
  intros (m & -> & Hm)%COORD_REGEX_at_sound. rewrite <- app_assoc.
  by apply COORD_REGEX_at_complete.
Qed.

(** A match found in [tl ++ u] from the first character of a non-empty
    [tl] lies inside [tl]. *)
Lemma COORD_REGEX_at_local tl u g1 g2 r :
  tl ≠ [] → closed_off u → COORD_REGEX_at (tl ++ u) = Some (g1, g2, r) →
  ∃ r', r = r' ++ u ∧ COORD_REGEX_at tl = Some (g1, g2, r').
Proof.
  intros Htl Hu Hat.
  destruct (COORD_REGEX_at_sound _ _ _ _ Hat) as (m & E & Hm).
  apply app_eq_inv in E as [(k & -> & ->)|(k & -> & ->)].
  - exists k. split; [done|]. by apply COORD_REGEX_at_complete.
  - destruct (decide (k = [])) as [->|Hk].
    { exists []. split; [done|]. rewrite app_nil_r in Hm. rewrite <- (app_nil_r tl).
      by apply COORD_REGEX_at_complete. }
    exfalso. destruct (coord_shape_parens _ _ _ Hm) as (b & Eb & Hb).
    destruct tl as [|c tl]; [done|]. simpl in Eb. injection Eb as -> Eb.
    assert (last (tl ++ k) = Some (chr ")")) as Hlast.
    { rewrite Eb. apply last_snoc. }
    rewrite last_app in Hlast. apply last_is_Some in Hk as Hk'. destruct Hk' as [c Hc].
    rewrite Hc in Hlast. simplify_eq.
    destruct (Hu k r eq_refl Hk) as [Hno|Hin]; [done|].
    apply Hb. assert (chr "(" ∈ b ++ [chr ")"]) as Hin'.
    { rewrite <- Eb. set_solver. }
    apply elem_of_app in Hin' as [?|Hin']; [done|].
    apply list_elem_of_singleton in Hin'. by vm_compute in Hin'.
Qed.

Lemma COORD_REGEX_at_space c s : is_space c = true → COORD_REGEX_at (c :: s) = None.
Proof.
  intros Hc. unfold COORD_REGEX_at, expect.
  destruct (N.eqb_spec c (chr "(")) as [->|_]; [by vm_compute in Hc|done].
Qed.

(** The leftmost match of [s ++ u] is that of [s] when [s] has one, and
    otherwise that of [u]. *)
Lemma COORD_REGEX_exec_app s u :
  closed_off u →
  COORD_REGEX_exec (s ++ u)
  = match COORD_REGEX_exec s with
    | Some (b, g, r) => Some (b, g, r ++ u)
    | None =>
        match COORD_REGEX_exec u with
        | Some (b, g, r) => Some (s ++ b, g, r)
        | None => None
        end
    end.
Proof.
  intros Hu. unfold COORD_REGEX_exec. induction s as [|c s IH].
  - simpl. by destruct (regex_exec COORD_REGEX_at u) as [[[??]?]|].
  - change ((c :: s) ++ u) with (c :: (s ++ u)).
    cbn [regex_exec]. rewrite IH.
    destruct (COORD_REGEX_at (c :: s)) as [[[g1 g2] r]|] eqn:Hat.
    + change (c :: s ++ u) with ((c :: s) ++ u).
      by rewrite (COORD_REGEX_at_extend _ _ _ _ _ Hat).
    + destruct (COORD_REGEX_at (c :: s ++ u)) as [[[g1 g2] r]|] eqn:Hat'.
      { apply (COORD_REGEX_at_local (c :: s)) in Hat' as (r' & _ & ?); [congruence|done|done]. }
      destruct (regex_exec COORD_REGEX_at s) as [[[??]?]|]; [done|].
      by destruct (regex_exec COORD_REGEX_at u) as [[[??]?]|].
Qed.

(** White space in front only moves the match. *)
Lemma COORD_REGEX_exec_spaces w s :
  spaces w →
  COORD_REGEX_exec (w ++ s)
  = match COORD_REGEX_exec s with
    | Some (b, g, r) => Some (w ++ b, g, r)
    | None => None
    end.
Proof.
  intros Hw. unfold COORD_REGEX_exec. induction Hw as [|c w Hc Hw IH].
  - simpl. by destruct (regex_exec COORD_REGEX_at s) as [[[??]?]|].
  - change ((c :: w) ++ s) with (c :: (w ++ s)). cbn [regex_exec].
    rewrite COORD_REGEX_at_space, IH by done.
    by destruct (regex_exec COORD_REGEX_at s) as [[[??]?]|].
Qed.

Lemma COORD_REGEX_exec_only_spaces w : spaces w → COORD_REGEX_exec w = None.
Proof.
  intros Hw. unfold COORD_REGEX_exec. induction Hw as [|c w Hc Hw IH]; [done|].
  cbn [regex_exec]. by rewrite COORD_REGEX_at_space, IH.
Qed.

(** Cutting the match out of a line commutes with trimming the line. *)
Lemma trim_COORD_REGEX_remove line :
  trim (COORD_REGEX_remove line) = trim (COORD_REGEX_remove (trim line)).
Proof.
  destruct (trim_split line) as (w1 & w2 & Hline & Hw1 & Hw2 & _).
  rewrite Hline at 1. unfold COORD_REGEX_remove.
  rewrite COORD_REGEX_exec_spaces by done.
  rewrite COORD_REGEX_exec_app by (by apply closed_off_spaces).
  rewrite (COORD_REGEX_exec_only_spaces w2) by done.
  destruct (COORD_REGEX_exec (trim line)) as [[[b [g1 g2]] r]|].
  - rewrite <- !app_assoc. rewrite (app_assoc b). by apply trim_around.
  - by apply trim_around.
Qed.

Lemma COORD_REGEX_exec_suffix x y :
  COORD_REGEX_exec (suffix_of_position x y)
  = Some ([chr " "], (Number_toString x, Number_toString y), []).
Proof.
  set (m := chr "(" :: [] ++ Number_toString x ++ chr "," :: [chr " "]
                      ++ Number_toString y ++ [] ++ [chr ")"]).
  assert (suffix_of_position x y = chr " " :: m ++ []) as ->.
  { unfold suffix_of_position, m. rewrite app_nil_r. done. }
  unfold COORD_REGEX_exec. rewrite regex_exec_next by (by apply COORD_REGEX_at_space).
  rewrite (regex_exec_here _ _ (Number_toString x, Number_toString y) []); [done|].
  apply COORD_REGEX_at_complete. exists [], [chr " "], [].
  split_and!; first [done | apply Number_toString_number | by repeat constructor].
Qed.

Lemma closed_off_suffix_of_position x y : closed_off (suffix_of_position x y).
Proof. apply closed_off_suffix. Qed.

(** ** Where the nodes of a parse come from *)

Section Trace.

Context `{Spiral}.

Lemma declareNode_nodes st index cmd ps x y :
  ∃ n, newNodes (declareNode st index cmd ps x y) = newNodes st ++ [n]
       ∧ node_lineIndex n = Z.of_nat index
       ∧ node_type n = nodeTypeOf cmd
       ∧ node_label n = ps !! 1
       ∧ (cmd ∈ attributeCommands →
          node_id n = Some (template (ps !! 1) ++ js "_" ++ decimal (N.of_nat index)))
       ∧ ∀ x' y', newNodes (declareNode st index cmd ps (Some x') (Some y'))
                  = newNodes st ++ [moved n x' y'].
Proof.
  unfold declareNode. destruct (finalPos x y (angle st)) as [a [fx fy]]. simpl.
  eexists. split_and!; try done.
  intros Hcmd. simpl. by rewrite bool_decide_eq_true_2.
Qed.

Lemma declareSpec_nodes st index cmd ps x y :
  ∃ n, newNodes (declareSpec st index cmd ps x y) = newNodes st ++ [n]
       ∧ node_lineIndex n = Z.of_nat index
       ∧ isAttributeType (node_type n) = false
       ∧ ∀ x' y', newNodes (declareSpec st index cmd ps (Some x') (Some y'))
                  = newNodes st ++ [moved n x' y'].
Proof.
  unfold declareSpec. destruct (finalPos x y (angle st)) as [a [fx fy]]. simpl.
  eexists. split_and!; try done. simpl. by case_decide.
Qed.

Lemma declaring_commands line : declaring line → command line ∈ commands.
Proof. unfold commands. rewrite !elem_of_app. intros [_ [?|?]]; tauto. Qed.

(** One line adds at most one node, and only a declaring line adds one. *)
Lemma processLine_nodes st index line :
  newNodes (processLine st index line) = newNodes st
  ∨ ∃ n, newNodes (processLine st index line) = newNodes st ++ [n]
         ∧ declaring line
         ∧ node_lineIndex n = Z.of_nat index.
Proof.
  unfold processLine, declaring. destruct (skipped line) eqn:Hs; [by left|].
  case_bool_decide as Hn.
  { right. destruct (declareNode_nodes st index (command line) (parts line)
                       (coord_x line) (coord_y line)) as (n & Hn' & Hi & _).
    exists n. auto. }
  case_bool_decide as Hsp.
  { right. destruct (declareSpec_nodes st index (command line) (parts line)
                       (coord_x line) (coord_y line)) as (n & Hn' & Hi & _).
    exists n. auto. }
  left. case_bool_decide; [|done]. unfold declareLink.
  by destruct (truthy (parts line !! 1) && truthy (parts line !! 2)).
Qed.

(** The nodes a run over [lines] adds carry the indices of those lines. *)
Lemma forEach_nodes lines st k :
  ∃ ns, newNodes (forEach processLine st k lines) = newNodes st ++ ns
        ∧ Forall (λ n, (Z.of_nat k ≤ node_lineIndex n < Z.of_nat (k + length lines))%Z) ns.
Proof.
  revert st k; induction lines as [|line lines IH]; intros st k; simpl.
  - exists []. by rewrite app_nil_r.
  - destruct (IH (processLine st k line) (S k)) as (ns & -> & Hns).
    assert (Forall (λ n, (Z.of_nat k ≤ node_lineIndex n
                          < Z.of_nat (k + S (length lines)))%Z) ns) as Hns'.
    { eapply Forall_impl; [done|]. simpl. intros n. lia. }
    destruct (processLine_nodes st k line) as [->|(n & -> & _ & Hi)].
    + by exists ns.
    + exists (n :: ns). split; [by rewrite <- app_assoc|].
      constructor; [lia|done].
Qed.

Lemma parseLines_middle lines i line :
  lines !! i = Some line →
  parseLines lines
  = forEach processLine (processLine (stateBefore lines i) i line) (S i) (drop (S i) lines).
Proof.
  intros Hi. unfold parseLines, stateBefore, parseLines.
  rewrite <- (take_drop_middle lines i line Hi) at 1.
  rewrite forEach_app. simpl.
  rewrite length_take_le by (apply lookup_lt_Some in Hi; lia). done.
Qed.

(** The node that the line at index [i] adds is among the nodes of the
    parse ... *)
Lemma node_of_line_in_parse lines i line n :
  lines !! i = Some line →
  newNodes (processLine (stateBefore lines i) i line) = newNodes (stateBefore lines i) ++ [n] →
  n ∈ newNodes (parseLines lines).
Proof.
  intros Hi Hn. rewrite (parseLines_middle lines i line Hi).
  destruct (forEach_nodes (drop (S i) lines) (processLine (stateBefore lines i) i line) (S i))
    as (ns & -> & _).
  rewrite Hn. set_solver.
Qed.

(** ... and a node of the parse with line index [i] is the node that the
    line at index [i] added. *)
Lemma node_in_parse_of_line lines n :
  n ∈ newNodes (parseLines lines) →
  ∃ i line,
    node_lineIndex n = Z.of_nat i ∧ lines !! i = Some line ∧ declaring line
    ∧ newNodes (processLine (stateBefore lines i) i line)
      = newNodes (stateBefore lines i) ++ [n].
Proof.
  intros Hn.
  destruct (forEach_nodes lines initialState 0) as (ns & Hns & Hall).
  fold (parseLines lines) in Hns.
  assert (0 ≤ node_lineIndex n < Z.of_nat (0 + length lines))%Z as Hrange.
  { rewrite Hns in Hn. simpl in Hn. eapply Forall_forall in Hall; [|done]. done. }
  set (i := Z.to_nat (node_lineIndex n)).
  destruct (lookup_lt_is_Some_2 lines i) as [line Hi]; [lia|].
  exists i, line. split; [lia|]. split; [done|].
  rewrite (parseLines_middle lines i line Hi) in Hn.
  destruct (forEach_nodes (drop (S i) lines) (processLine (stateBefore lines i) i line) (S i))
    as (ns2 & Hns2 & Hall2).
  destruct (forEach_nodes (take i lines) initialState 0) as (ns1 & Hns1 & Hall1).
  fold (parseLines (take i lines)) in Hns1. fold (stateBefore lines i) in Hns1.
  rewrite Hns2 in Hn. apply elem_of_app in Hn as [Hn|Hn].
  - destruct (processLine_nodes (stateBefore lines i) i line) as [E|(n' & E & Hd & Hi')].
    + rewrite E, Hns1 in Hn. simpl in Hn.
      eapply Forall_forall in Hall1; [|done]. simpl in Hall1.
      rewrite length_take in Hall1. lia.
    + rewrite E in Hn. apply elem_of_app in Hn as [Hn|Hn].
      * rewrite Hns1 in Hn. simpl in Hn.
        eapply Forall_forall in Hall1; [|done]. simpl in Hall1.
        rewrite length_take in Hall1. lia.
      * apply list_elem_of_singleton in Hn as ->. done.
  - eapply Forall_forall in Hall2; [|done]. simpl in Hall2. lia.
Qed.

End Trace.

(** ** Attribute ids *)

Lemma nodeTypeOf_attribute cmd :
  cmd ∈ nodeCommands → isAttributeType (nodeTypeOf cmd) = true → cmd ∈ attributeCommands.
Proof.
  unfold nodeCommands. intros Hin Hty.
  repeat (apply elem_of_cons in Hin as [->|Hin]);
    try (by vm_compute in Hty); try (by inversion Hin);
    apply (bool_decide_unpack _); by vm_compute.
Qed.

Lemma attributeCommands_nodeCommands cmd : cmd ∈ attributeCommands → cmd ∈ nodeCommands.
Proof.
  unfold attributeCommands. intros Hin.
  repeat (apply elem_of_cons in Hin as [->|Hin]); try (by inversion Hin);
    apply (bool_decide_unpack _); by vm_compute.
Qed.

(** Two texts that agree up to the first occurrence of [c] from the left. *)
Lemma app_cons_inj_l (c : char) l1 r1 l2 r2 :
  c ∉ l1 → c ∉ l2 → l1 ++ c :: r1 = l2 ++ c :: r2 → l1 = l2.
Proof.
  revert l2; induction l1 as [|a l1 IH]; intros [|b l2] H1 H2 E; simpl in E.
  - done.
  - simplify_eq. set_solver.
  - simplify_eq. set_solver.
  - simplify_eq. f_equal. apply IH; set_solver.
Qed.

Lemma underscore_not_in_decimal n : chr "_" ∉ decimal n.
Proof.
  intros Hin. pose proof (decimal_digits n) as Hd.
  eapply Forall_forall in Hd; [|done]. by vm_compute in Hd.
Qed.

(** The index after the last underscore of an id decides the id's line. *)
Lemma suffixed_inj a b i j :
  a ++ js "_" ++ decimal i = b ++ js "_" ++ decimal j → i = j.
Proof.
  intros E. apply (f_equal reverse) in E.
  change (js "_" ++ ?d) with ([chr "_"] ++ d) in E.
  rewrite !reverse_app, !reverse_singleton in E. rewrite <- !app_assoc in E. simpl in E.
  apply app_cons_inj_l in E.
  - apply (f_equal reverse) in E. rewrite !reverse_involutive in E. by apply decimal_inj.
  - rewrite elem_of_reverse. apply underscore_not_in_decimal.
  - rewrite elem_of_reverse. apply underscore_not_in_decimal.
Qed.

Section AttributeIds.

Context `{Spiral}.

(** The id of every attribute node of a parse is its label, an underscore
    and its line index. *)
Lemma attribute_node_id code n :
  n ∈ nodes (parseCode code) → isAttributeType (node_type n) = true →
  node_id n = Some (template (node_label n) ++ js "_" ++ decimal (Z.to_N (node_lineIndex n))).
Proof.
  intros Hn Hty. apply node_in_parse_of_line in Hn as (i & line & Hi & Hline & Hd & Hn).
  destruct Hd as [Hs Hcmd]. revert Hn. unfold processLine. rewrite Hs.
  case_bool_decide as Hnc.
  - destruct (declareNode_nodes (stateBefore (str_split LF code) i) i (command line)
                (parts line) (coord_x line) (coord_y line)) as (n' & -> & Hi' & Ht & Hl & Hid & _).
    intros ->%app_inj_tail%proj2. rewrite Hi, Hl.
    replace (Z.to_N (Z.of_nat i)) with (N.of_nat i) by lia.
    apply Hid, nodeTypeOf_attribute; [done|]. by rewrite <- Ht.
  - case_bool_decide as Hsc; [|tauto].
    destruct (declareSpec_nodes (stateBefore (str_split LF code) i) i (command line)
                (parts line) (coord_x line) (coord_y line)) as (n' & -> & _ & Ht & _).
    intros ->%app_inj_tail%proj2. congruence.
Qed.

(** C6.  Every attribute declaration (a line that is not skipped and whose
    command is [att], [key_att], [derived_att] or [multivalued_attribute])
    yields a node whose id is its label, an underscore and the line index;
    and two attribute nodes of one parse that come from different lines
    have different ids, whatever their labels. *)
Theorem attribute_ids_by_line (code : jsstring) :
  (∀ i line,
      str_split LF code !! i = Some line → skipped line = false →
      command line ∈ attributeCommands →
      ∃ n, n ∈ nodes (parseCode code)
           ∧ node_lineIndex n = Z.of_nat i
           ∧ isAttributeType (node_type n) = true
           ∧ node_label n = parts line !! 1
           ∧ node_id n = Some (template (parts line !! 1) ++ js "_" ++ decimal (N.of_nat i)))
  ∧ (∀ n1 n2,
        n1 ∈ nodes (parseCode code) → n2 ∈ nodes (parseCode code) →
        isAttributeType (node_type n1) = true → isAttributeType (node_type n2) = true →
        node_lineIndex n1 ≠ node_lineIndex n2 → node_id n1 ≠ node_id n2).
Proof.
  split.
  - intros i line Hline Hs Hcmd.
    pose proof (attributeCommands_nodeCommands _ Hcmd) as Hnc.
    destruct (declareNode_nodes (stateBefore (str_split LF code) i) i (command line)
                (parts line) (coord_x line) (coord_y line)) as (n & Hn & Hi & Ht & Hl & Hid & _).
    exists n. split_and!; try done.
    + eapply (node_of_line_in_parse _ i line); [done|].
      unfold processLine. by rewrite Hs, bool_decide_eq_true_2.
    + rewrite Ht. revert Hcmd. unfold attributeCommands. intros Hin.
      repeat (apply elem_of_cons in Hin as [->|Hin]); try (by inversion Hin); done.
    + by apply Hid.
  - intros n1 n2 Hn1 Hn2 Ht1 Ht2 Hne E.
    rewrite (attribute_node_id code n1), (attribute_node_id code n2) in E by done.
    simplify_eq. apply suffixed_inj in E.
    destruct (node_in_parse_of_line _ _ Hn1) as (i1 & _ & Hi1 & _).
    destruct (node_in_parse_of_line _ _ Hn2) as (i2 & _ & Hi2 & _).
    rewrite Hi1, Hi2 in *. apply Hne. lia.
Qed.

End AttributeIds.

(** ** The line that write-back leaves *)

Lemma commands_head cmd : cmd ∈ commands → ∃ c t, cmd = c :: t ∧ c ≠ chr "/".
Proof.
  unfold commands, nodeCommands, specCommands. simpl. intros Hin.
  repeat (apply elem_of_cons in Hin as [->|Hin]); try (by inversion Hin);
    eexists _, _; (split; [reflexivity|by vm_compute]).
Qed.

Lemma split_spaces_acc_head cur b s :
  ∃ t ts, split_spaces_acc cur b s = (reverse cur ++ t) :: ts.
Proof.
  revert cur b; induction s as [|c s IH]; intros cur b; simpl.
  - exists [], []. by rewrite app_nil_r.
  - destruct (is_space c).
    + destruct b; [apply IH|]. exists [], (split_spaces_acc [] true s). by rewrite app_nil_r.
    + destruct (IH (c :: cur) false) as (t & ts & ->).
      exists (c :: t), ts. by rewrite reverse_cons, <- app_assoc.
Qed.

(** A coordinate-stripped line that opens a comment has no command. *)
Lemma comment_not_command rest :
  toLowerCase (default [] (split_spaces (chr "/" :: chr "/" :: rest) !! 0)) ∉ commands.
Proof.
  unfold split_spaces.
  change (split_spaces_acc [] false (chr "/" :: chr "/" :: rest))
    with (split_spaces_acc [chr "/"; chr "/"] false rest).
  destruct (split_spaces_acc_head [chr "/"; chr "/"] false rest) as (t & ts & ->).
  intros (c & t' & E & Hc)%commands_head. simpl in E. by simplify_eq.
Qed.

Lemma lineWithoutCoords_not_nil line :
  command line ∈ commands → lineWithoutCoords line ≠ [].
Proof.
  intros (c & t & E & _)%commands_head Hnil. unfold command, parts in E.
  rewrite Hnil in E. done.
Qed.

Lemma lineWithoutCoords_trim line :
  lineWithoutCoords line = trim (COORD_REGEX_remove line).
Proof. unfold lineWithoutCoords, cleanLine. symmetry. apply trim_COORD_REGEX_remove. Qed.

Lemma rewritten_line line newX newY :
  command line ∈ commands →
  COORD_REGEX_exec (lineWithoutCoords line) = None →
  cleanLine (rewritten line newX newY)
    = lineWithoutCoords line ++ suffix_of_position (Math_round newX) (Math_round newY)
  ∧ skipped (rewritten line newX newY) = false
  ∧ lineWithoutCoords (rewritten line newX newY) = lineWithoutCoords line
  ∧ coord_x (rewritten line newX newY) = Some (Math_round newX)
  ∧ coord_y (rewritten line newX newY) = Some (Math_round newY).
Proof.
  intros Hcmd Hfree.
  pose proof (lineWithoutCoords_not_nil line Hcmd) as Hne.
  unfold command, parts in Hcmd.
  destruct (trim_split (COORD_REGEX_remove line)) as (w1 & w2 & HR & Hw1 & Hw2 & Hends).
  rewrite <- lineWithoutCoords_trim in HR, Hends.
  remember (lineWithoutCoords line) as T eqn:HT.
  set (sfx := suffix_of_position (Math_round newX) (Math_round newY)).
  destruct (Hends Hne) as [Hh Hl].
  assert (rewritten line newX newY = w1 ++ (T ++ sfx) ++ []) as Hline'.
  { unfold rewritten. fold sfx. rewrite HR. rewrite (proj2 (trim_core w1 T w2 Hw1 Hw2 Hne Hh Hl)).
    by rewrite app_nil_r, <- app_assoc. }
  assert (cleanLine (rewritten line newX newY) = T ++ sfx) as Hclean.
  { unfold cleanLine. rewrite Hline'. apply trim_core; [done|by constructor|..].
    - by destruct T.
    - rewrite head_app. by destruct T.
    - unfold sfx, suffix_of_position. change (js ")") with [chr ")"].
      rewrite !app_assoc, last_snoc. done. }
  assert (COORD_REGEX_exec (T ++ sfx)
          = Some (T ++ [chr " "],
                  (Number_toString (Math_round newX), Number_toString (Math_round newY)), []))
    as Hexec.
  { rewrite COORD_REGEX_exec_app by apply closed_off_suffix_of_position.
    rewrite Hfree. unfold sfx. by rewrite COORD_REGEX_exec_suffix. }
  split_and!.
  - done.
  - unfold skipped. rewrite Hclean. apply orb_false_iff. split.
    + apply bool_decide_eq_false_2. by destruct T.
    + destruct (startsWith (T ++ sfx) (js "//")) eqn:Hsw; [|done]. exfalso.
      apply startsWith_spec in Hsw as (post & Hpost).
      destruct T as [|c1 [|c2 T']]; [done|..].
      * by vm_compute in Hpost.
      * simpl in Hpost. injection Hpost as -> -> _.
        by eapply comment_not_command.
  - unfold lineWithoutCoords at 1. rewrite Hclean. unfold COORD_REGEX_remove.
    rewrite Hexec. rewrite app_nil_r.
    pose proof (trim_core [] T [chr " "]) as Ht. simpl in Ht.
    apply Ht; [by constructor|by repeat constructor|done..].
  - unfold coord_x, coordMatch. rewrite Hclean, Hexec. simpl.
    by rewrite parseInt_Number_toString.
  - unfold coord_y, coordMatch. rewrite Hclean, Hexec. simpl.
    by rewrite parseInt_Number_toString.
Qed.

(** ** Round trip of a position *)

Lemma moved_same n : moved n (node_x n) (node_y n) = n.
Proof. by destruct n. Qed.

Section RoundTrip.

Context `{Spiral}.

(** A declaring line whose coordinate-stripped text holds no coordinate
    pattern, once rewritten with a position, declares the same node at
    that position. *)
Lemma processLine_rewritten st index line n newX newY :
  declaring line →
  COORD_REGEX_exec (lineWithoutCoords line) = None →
  newNodes (processLine st index line) = newNodes st ++ [n] →
  newNodes (processLine st index (rewritten line newX newY))
  = newNodes st ++ [moved n (Math_round newX) (Math_round newY)].
Proof.
  intros Hd Hfree Hn.
  destruct (rewritten_line line newX newY (declaring_commands _ Hd) Hfree)
    as (_ & Hs' & Hlwc & Hx & Hy).
  assert (parts (rewritten line newX newY) = parts line) as Hparts.
  { unfold parts. by rewrite Hlwc. }
  assert (command (rewritten line newX newY) = command line) as Hcmd.
  { unfold command. by rewrite Hparts. }
  destruct Hd as [Hs _]. revert Hn. unfold processLine.
  rewrite Hs, Hs', Hcmd, Hparts, Hx, Hy.
  case_bool_decide.
  - destruct (declareNode_nodes st index (command line) (parts line)
                (coord_x line) (coord_y line)) as (n' & -> & _ & _ & _ & _ & Hmv).
    intros ->%app_inj_tail%proj2. apply Hmv.
  - case_bool_decide.
    + destruct (declareSpec_nodes st index (command line) (parts line)
                  (coord_x line) (coord_y line)) as (n' & -> & _ & _ & Hmv).
      intros ->%app_inj_tail%proj2. apply Hmv.
    + intros Hn. exfalso. apply (f_equal length) in Hn. revert Hn.
      rewrite length_app. simpl.
      case_bool_decide; [|lia]. unfold declareLink.
      destruct (truthy (parts line !! 1) && truthy (parts line !! 2)); simpl; lia.
Qed.

(** C1, as the code has it.  Take a node of a parse whose coordinates are
    safe integers and whose source line, once its first coordinate match is
    cut out, holds no further coordinate pattern.  Writing its own position
    back to its own line and parsing again gives that very node: the same
    line index, the same [x] and [y] (and the same id, type and label).
    The bound on the coordinates is not used by the proof: it marks the
    range in which the integers of the model are the doubles of the
    program. *)
Theorem roundtrip_position (code : jsstring) (n : NodeData) (line : jsstring)
    (nodes' : list NodeData) (nodeId : jsvalue) (node : NodeData) :
  n ∈ nodes (parseCode code) →
  str_split LF code !! Z.to_nat (node_lineIndex n) = Some line →
  COORD_REGEX_exec (lineWithoutCoords line) = None →
  Number_isSafeInteger (node_x n) → Number_isSafeInteger (node_y n) →
  find (λ m, bool_decide (node_id m = nodeId)) nodes' = Some node →
  node_lineIndex node = node_lineIndex n →
  n ∈ nodes (parseCode (updateCodePosition nodes' code nodeId
                          (inject_Z (node_x n)) (inject_Z (node_y n)))).
Proof.
  intros Hn Hline Hfree _ _ Hfind Hidx.
  apply node_in_parse_of_line in Hn as (i & line0 & Hi & Hline0 & Hd & Hn).
  rewrite Hi, Nat2Z.id in Hline. simplify_eq.
  unfold updateCodePosition. rewrite Hfind, Hidx, Hi.
  unfold parseCode at 1. simpl.
  rewrite (updateCodePosition_line_in_range code (Z.of_nat i) _ _ line0)
    by (rewrite ?Nat2Z.id; (lia || done)).
  rewrite Nat2Z.id.
  set (lines := str_split LF code) in *.
  set (line' := rewritten line0 (inject_Z (node_x n)) (inject_Z (node_y n))).
  apply (node_of_line_in_parse (<[i:=line']> lines) i line').
  { apply list_lookup_insert_eq. by apply lookup_lt_Some in Hline0. }
  unfold stateBefore. rewrite take_insert_ge by lia. fold (stateBefore lines i).
  unfold line'. rewrite (processLine_rewritten _ _ _ n) by done.
  by rewrite !Math_round_Z, moved_same.
Qed.

End RoundTrip.

(** ** Determinism *)

Section Runs_of_the_parser.

Context `{Spiral}.

Lemma finalPos_default x y a :
  finalPos x y a
  = match x, y with
    | Some fx, Some fy => (a, (fx, fy))
    | _, _ => (S a, (spiral_x (S a), spiral_y (S a)))
    end.
Proof. by destruct x, y. Qed.

Lemma coord_None line :
  coordMatch line = None → coord_x line = None ∧ coord_y line = None.
Proof. unfold coord_x, coord_y. by intros ->. Qed.

Lemma coord_Some line :
  coordMatch line ≠ None → is_Some (coord_x line) ∧ is_Some (coord_y line).
Proof. unfold coord_x, coord_y. destruct (coordMatch line); [|done]. by split; eexists. Qed.

(** One line advances the angle once when the spiral places its node, and
    not at all otherwise. *)
Lemma processLine_angle st index line :
  angle (processLine st index line)
  = angle st + (if placedByDefault line then 1 else 0).
Proof.
  unfold processLine, placedByDefault. destruct (skipped line); simpl; [lia|].
  assert (∀ cmd ps, angle (declareNode st index cmd ps (coord_x line) (coord_y line))
                    = angle st + (if bool_decide (coordMatch line = None) then 1 else 0)
                    ∧ angle (declareSpec st index cmd ps (coord_x line) (coord_y line))
                      = angle st + (if bool_decide (coordMatch line = None) then 1 else 0))
    as Hbranch.
  { intros cmd ps. unfold declareNode, declareSpec. rewrite finalPos_default.
    destruct (decide (coordMatch line = None)) as [Hm|Hm].
    - rewrite (bool_decide_eq_true_2 _ Hm).
      destruct (coord_None line Hm) as [Hx Hy]. rewrite Hx, ?Hy. simpl. lia.
    - rewrite (bool_decide_eq_false_2 _ Hm).
      destruct (coord_Some line Hm) as [[fx Hx] [fy Hy]]. rewrite Hx, ?Hy. simpl. lia. }
  destruct (bool_decide (command line ∈ nodeCommands)); simpl; [apply Hbranch|].
  destruct (bool_decide (command line ∈ specCommands)); simpl; [apply Hbranch|].
  destruct (bool_decide (command line = js "link")); [|lia].
  unfold declareLink.
  destruct (truthy (parts line !! 1) && truthy (parts line !! 2)); simpl; lia.
Qed.

Lemma forEach_angle lines st k :
  angle (forEach processLine st k lines) = angle st + defaultsIn lines.
Proof.
  revert st k; induction lines as [|line lines IH]; intros st k; simpl; [lia|].
  rewrite IH, processLine_angle. lia.
Qed.

(** The node of a line without coordinates sits on the spiral point that
    follows the angle reached so far. *)
Lemma processLine_default_position st index line n :
  coordMatch line = None →
  newNodes (processLine st index line) = newNodes st ++ [n] →
  node_x n = spiral_x (S (angle st)) ∧ node_y n = spiral_y (S (angle st)).
Proof.
  intros Hm. destruct (coord_None line Hm) as [Hx Hy].
  unfold processLine. rewrite Hx, Hy. destruct (skipped line).
  { intros E. apply (f_equal length) in E. rewrite length_app in E. simpl in E. lia. }
  case_bool_decide.
  { unfold declareNode. simpl. by intros <-%app_inj_tail%proj2. }
  case_bool_decide.
  { unfold declareSpec. simpl. by intros <-%app_inj_tail%proj2. }
  intros E. apply (f_equal length) in E. revert E. rewrite length_app. simpl.
  case_bool_decide; [|lia]. unfold declareLink.
  destruct (truthy (parts line !! 1) && truthy (parts line !! 2)); simpl; lia.
Qed.

(** C7.  Two runs of the parser on the same text give the same nodes and
    the same links.  The default positions agree because each run starts
    its spiral anew: a node whose line gives no coordinates sits on the
    spiral point numbered one more than the count of earlier lines whose
    node the spiral placed, a function of the text alone. *)
Theorem parse_deterministic (code1 code2 : jsstring) :
  code1 = code2 →
  nodes (parseCode code1) = nodes (parseCode code2)
  ∧ links (parseCode code1) = links (parseCode code2)
  ∧ ∀ n line,
      n ∈ nodes (parseCode code1) →
      str_split LF code1 !! Z.to_nat (node_lineIndex n) = Some line →
      coordMatch line = None →
      let k := S (defaultsIn (take (Z.to_nat (node_lineIndex n)) (str_split LF code1))) in
      node_x n = spiral_x k ∧ node_y n = spiral_y k.
Proof.
  intros ->. split_and!; [done|done|].
  intros n line Hn Hline Hm k.
  apply node_in_parse_of_line in Hn as (i & line0 & Hi & Hline0 & _ & Hn).
  subst k. rewrite Hi, Nat2Z.id in *. simplify_eq.
  destruct (processLine_default_position _ _ _ _ Hm Hn) as [-> ->].
  unfold stateBefore, parseLines. by rewrite forEach_angle.
Qed.

(** ** Two slips of the parser *)

(** C3, at a failing input.  The suffixed id of the attribute on line 1 is
    the label of the entity on line 0: the two nodes share their id. *)
Theorem duplicate_ids_example :
  node_id <$> nodes (parseCode (document [js "ent A_1"; js "att A"]))
  = [Some (js "A_1"); Some (js "A_1")].
Proof. reflexivity. Qed.

(** C9, at a failing input.  The line [ent] alone adds a node without id
    and without label, placed by the spiral. *)
Theorem missing_label_example :
  parseCode (js "ent")
  = {| nodes := [{| node_id := None; node_type := Entity; node_label := None;
                    node_x := spiral_x 1; node_y := spiral_y 1; node_meta := None;
                    node_lineIndex := 0 |}];
       links := [] |}.
Proof. reflexivity. Qed.

End Runs_of_the_parser.

(** * Further properties of the parser and of write-back *)

(** ** One node for each declaring line *)

Lemma declares_declaring line : declares line = true ↔ declaring line.
Proof.
  unfold declares, declaring.
  rewrite andb_true_iff, negb_true_iff, orb_true_iff, !bool_decide_eq_true. done.
Qed.

Lemma declaringIndices_range lines k :
  Forall (λ i, k ≤ i < k + length lines) (declaringIndices k lines).
Proof.
  revert k. induction lines as [|line lines IH]; intros k; simpl; [constructor|].
  apply Forall_app. split.
  - destruct (declares line); repeat constructor; lia.
  - eapply Forall_impl; [apply IH|]. simpl. lia.
Qed.

Lemma declaringIndices_increasing lines k i j a b :
  i < j → declaringIndices k lines !! i = Some a → declaringIndices k lines !! j = Some b →
  a < b.
Proof.
  revert k i j. induction lines as [|line lines IH]; intros k i j Hij; simpl; [done|].
  pose proof (declaringIndices_range lines (S k)) as Hr.
  destruct (declares line); simpl; [|by apply IH].
  destruct i as [|i], j as [|j]; simpl; try lia.
  - intros [= <-] Hb%list_elem_of_lookup_2.
    eapply Forall_forall in Hr; [|done]. simpl in Hr. lia.
  - apply IH. lia.
Qed.

Section LineOrder.

Context `{Spiral}.

Lemma processLine_declares st index line :
  if declares line
  then ∃ n, newNodes (processLine st index line) = newNodes st ++ [n]
            ∧ node_lineIndex n = Z.of_nat index
  else newNodes (processLine st index line) = newNodes st.
Proof.
  unfold declares, processLine. destruct (skipped line); simpl; [done|].
  destruct (bool_decide (command line ∈ nodeCommands)); simpl.
  { destruct (declareNode_nodes st index (command line) (parts line)
                (coord_x line) (coord_y line)) as (n & Hn & Hi & _). eauto. }
  destruct (bool_decide (command line ∈ specCommands)); simpl.
  { destruct (declareSpec_nodes st index (command line) (parts line)
                (coord_x line) (coord_y line)) as (n & Hn & Hi & _). eauto. }
  destruct (bool_decide (command line = js "link")); [|done].
  apply declareLink_links.
Qed.

Lemma forEach_lineIndex lines st k :
  node_lineIndex <$> newNodes (forEach processLine st k lines)
  = (node_lineIndex <$> newNodes st) ++ (Z.of_nat <$> declaringIndices k lines).
Proof.
  revert st k. induction lines as [|line lines IH]; intros st k; simpl.
  { by rewrite app_nil_r. }
  rewrite IH, fmap_app, app_assoc. f_equal.
  pose proof (processLine_declares st k line) as Hl.
  destruct (declares line).
  - destruct Hl as (n & -> & Hi). rewrite fmap_app. simpl. by rewrite Hi.
  - rewrite Hl. simpl. by rewrite app_nil_r.
Qed.

(** X1.  Each line that declares a node (an unskipped line whose command is
    a node command, [spec] or [union]) gives exactly one node, and the
    nodes stand in the order of their lines: the line indices of the nodes
    of a parse are the indices of the declaring lines, in ascending order.
    So no two nodes of a parse share their line index, and the line index
    of a node of the parse is never out of the range of the text. *)
Theorem nodes_in_line_order (code : jsstring) :
  node_lineIndex <$> nodes (parseCode code)
    = Z.of_nat <$> declaringIndices 0 (str_split LF code)
  ∧ (∀ i j n m,
       i < j → nodes (parseCode code) !! i = Some n → nodes (parseCode code) !! j = Some m →
       (node_lineIndex n < node_lineIndex m)%Z)
  ∧ (∀ n, n ∈ nodes (parseCode code) →
          (0 ≤ node_lineIndex n < Z.of_nat (length (str_split LF code)))%Z
          ∧ ∃ line, str_split LF code !! Z.to_nat (node_lineIndex n) = Some line
                    ∧ declares line = true).
Proof.
  assert (node_lineIndex <$> nodes (parseCode code)
          = Z.of_nat <$> declaringIndices 0 (str_split LF code)) as E.
  { unfold parseCode, parseLines. simpl. by rewrite forEach_lineIndex. }
  split_and!; [done| |].
  - intros i j n m Hij Hn Hm.
    apply (f_equal (fmap node_lineIndex)) in Hn, Hm.
    rewrite <- list_lookup_fmap, E, list_lookup_fmap in Hn, Hm.
    destruct (declaringIndices 0 (str_split LF code) !! i) as [a|] eqn:Ha; [|done].
    destruct (declaringIndices 0 (str_split LF code) !! j) as [b|] eqn:Hb; [|done].
    simpl in Hn, Hm. simplify_eq.
    pose proof (declaringIndices_increasing _ _ _ _ _ _ Hij Ha Hb). lia.
  - intros n Hn.
    apply node_in_parse_of_line in Hn as (i & line & -> & Hline & Hd & _).
    pose proof (lookup_lt_Some _ _ _ Hline) as Hlt.
    split; [lia|]. exists line. rewrite Nat2Z.id. split; [done|].
    by apply declares_declaring.
Qed.

End LineOrder.

(** ** Positions given in the text *)

Section ExplicitPositions.

Context `{Spiral}.

Lemma processLine_explicit_position st index line n b g1 g2 r :
  coordMatch line = Some (b, (g1, g2), r) →
  newNodes (processLine st index line) = newNodes st ++ [n] →
  node_x n = parseInt g1 ∧ node_y n = parseInt g2.
Proof.
  intros Hm. unfold processLine, coord_x, coord_y. rewrite Hm. simpl.
  destruct (skipped line).
  { intros E. apply (f_equal length) in E. rewrite length_app in E. simpl in E. lia. }
  case_bool_decide.
  { unfold declareNode. simpl. by intros <-%app_inj_tail%proj2. }
  case_bool_decide.
  { unfold declareSpec. simpl. by intros <-%app_inj_tail%proj2. }
  intros E. apply (f_equal length) in E. revert E. rewrite length_app. simpl.
  case_bool_decide; [|lia]. unfold declareLink.
  destruct (truthy (parts line !! 1) && truthy (parts line !! 2)); simpl; lia.
Qed.

(** X2.  A coordinate pair in the text is honoured: when the line of a node
    holds a match of the coordinate pattern (the first one, wherever it
    stands in the line) and its two numerals write safe integers, the node
    sits at those integers, whatever the other lines are and however far
    the spiral has advanced.  (Beyond the safe integers the program holds
    the nearest double, which the integers of the model do not follow.) *)
Theorem explicit_position_honoured (code : jsstring) (n : NodeData) (line : jsstring)
    (before g1 g2 rest : jsstring) :
  n ∈ nodes (parseCode code) →
  str_split LF code !! Z.to_nat (node_lineIndex n) = Some line →
  coordMatch line = Some (before, (g1, g2), rest) →
  Number_isSafeInteger (parseInt g1) → Number_isSafeInteger (parseInt g2) →
  node_x n = parseInt g1 ∧ node_y n = parseInt g2.
Proof.
  intros Hn Hline Hm _ _.
  apply node_in_parse_of_line in Hn as (i & line0 & Hi & Hline0 & _ & Hn).
  rewrite Hi, Nat2Z.id in Hline. simplify_eq.
  eapply processLine_explicit_position; done.
Qed.

End ExplicitPositions.

Lemma processLine_spiral (H1 H2 : Spiral) st index line :
  placedByDefault line = false →
  @processLine H1 st index line = @processLine H2 st index line.
Proof.
  unfold placedByDefault, processLine. destruct (skipped line); simpl; [done|].
  destruct (decide (coordMatch line = None)) as [Hm|Hm].
  - rewrite (bool_decide_eq_true_2 _ Hm), andb_true_r.
    intros [-> ->]%orb_false_iff. done.
  - intros _. unfold coord_x, coord_y.
    destruct (coordMatch line) as [[[b [g1 g2]] r]|]; [|done]. simpl.
    done.
Qed.

(** X3.  A document in which every declaring line carries a coordinate pair
    never consults the spiral: its parse is the same for any two spirals,
    that is, it does not depend on the floating-point layout at all. *)
Theorem positioned_document_ignores_spiral (H1 H2 : Spiral) (code : jsstring) :
  Forall (λ line, placedByDefault line = false) (str_split LF code) →
  @parseCode H1 code = @parseCode H2 code.
Proof.
  intros Hall. unfold parseCode, parseLines.
  enough (∀ lines st k, Forall (λ line, placedByDefault line = false) lines →
            forEach (@processLine H1) st k lines = forEach (@processLine H2) st k lines)
    as Hloop by (by rewrite Hloop).
  clear. induction lines as [|line lines IH]; intros st k Hall; simpl; [done|].
  apply Forall_cons in Hall as [Hl Hall].
  rewrite (processLine_spiral H1 H2) by done. by apply IH.
Qed.

(** ** Text added at the end *)

Lemma str_join_app (sep : char) l1 l2 :
  l1 ≠ [] → l2 ≠ [] → str_join sep (l1 ++ l2) = str_join sep l1 ++ sep :: str_join sep l2.
Proof.
  intros H1 H2. induction l1 as [|a l1 IH]; [done|].
  destruct l1 as [|b l1].
  - simpl. destruct l2; [done|]. done.
  - change (str_join sep ((a :: b :: l1) ++ l2))
      with (a ++ sep :: str_join sep ((b :: l1) ++ l2)).
    rewrite IH by done. simpl. by norm_app.
Qed.

Lemma str_split_app (sep : char) a b :
  str_split sep (a ++ sep :: b) = str_split sep a ++ str_split sep b.
Proof.
  transitivity (str_split sep (str_join sep (str_split sep a ++ str_split sep b))).
  { rewrite str_join_app by apply split_acc_not_nil. by rewrite !join_split. }
  apply split_join.
  - intros [E _]%app_eq_nil. by apply split_acc_not_nil in E.
  - apply Forall_app. split; apply split_no_sep.
Qed.

Section AppendedText.

Context `{Spiral}.

Lemma processLine_links st index line :
  ∃ ls, newLinks (processLine st index line) = newLinks st ++ ls.
Proof.
  unfold processLine. destruct (skipped line); [exists []; by rewrite app_nil_r|].
  destruct (bool_decide (command line ∈ nodeCommands)).
  { unfold declareNode. destruct (finalPos _ _ _) as [a [fx fy]]. simpl. eauto. }
  destruct (bool_decide (command line ∈ specCommands)).
  { unfold declareSpec. destruct (finalPos _ _ _) as [a [fx fy]]. simpl. eauto. }
  destruct (bool_decide (command line = js "link")); [|exists []; by rewrite app_nil_r].
  unfold declareLink.
  destruct (truthy (parts line !! 1) && truthy (parts line !! 2)); simpl; [eauto|].
  exists []. by rewrite app_nil_r.
Qed.

Lemma forEach_links lines st k :
  ∃ ls, newLinks (forEach processLine st k lines) = newLinks st ++ ls.
Proof.
  revert st k. induction lines as [|line lines IH]; intros st k; simpl.
  { exists []. by rewrite app_nil_r. }
  destruct (IH (processLine st k line) (S k)) as (ls2 & ->).
  destruct (processLine_links st k line) as (ls1 & ->).
  exists (ls1 ++ ls2). by rewrite app_assoc.
Qed.

(** X4.  Text added after the last line leaves what the earlier lines gave
    untouched: the nodes and the links of the longer document begin with
    the nodes and the links of the shorter one, position for position, and
    every further node comes from one of the added lines. *)
Theorem appended_text_keeps_parse (code more : jsstring) :
  ∃ ns ls,
    nodes (parseCode (code ++ LF :: more)) = nodes (parseCode code) ++ ns
    ∧ links (parseCode (code ++ LF :: more)) = links (parseCode code) ++ ls
    ∧ Forall (λ n, (Z.of_nat (length (str_split LF code)) ≤ node_lineIndex n)%Z) ns.
Proof.
  unfold parseCode, parseLines. simpl. rewrite str_split_app, forEach_app.
  set (st := forEach processLine initialState 0 (str_split LF code)).
  destruct (forEach_nodes (str_split LF more) st (0 + length (str_split LF code)))
    as (ns & Hns & Hall).
  destruct (forEach_links (str_split LF more) st (0 + length (str_split LF code)))
    as (ls & Hls).
  exists ns, ls. split_and!; [done|done|].
  eapply Forall_impl; [apply Hall|]. simpl. lia.
Qed.

End AppendedText.

(** ** Write-back, then write-back again *)

Lemma updateCodePosition_line_eq code lineIndex newX newY line :
  (0 ≤ lineIndex)%Z →
  str_split LF code !! Z.to_nat lineIndex = Some line →
  updateCodePosition_line code lineIndex newX newY
  = str_join LF (<[Z.to_nat lineIndex := rewritten line newX newY]> (str_split LF code)).
Proof.
  intros Hpos Hline. unfold updateCodePosition_line.
  pose proof (lookup_lt_Some _ _ _ Hline) as Hlt.
  replace ((0 <=? lineIndex)%Z && (lineIndex <? Z.of_nat (length (str_split LF code)))%Z)
    with true by (symmetry; apply andb_true_iff; split; [apply Z.leb_le|apply Z.ltb_lt]; lia).
  by rewrite Hline, COORD_REGEX_test_remove.
Qed.

Lemma trimEnd_trimEnd s : trimEnd (trimEnd s) = trimEnd s.
Proof. destruct (trimEnd_split s) as (w & _ & _ & Hl). by apply trimEnd_stop. Qed.

Lemma COORD_REGEX_exec_trimEnd s :
  COORD_REGEX_exec (trim s) = None → COORD_REGEX_exec (trimEnd s) = None.
Proof.
  intros Hfree.
  destruct (trim_split s) as (w1 & w2 & Hs & Hw1 & Hw2 & Hends).
  remember (trim s) as t eqn:Ht. destruct (decide (t = [])) as [->|Hne].
  - apply COORD_REGEX_exec_only_spaces.
    destruct (trimEnd_split s) as (w & Hw & _ & _).
    assert (spaces s) as Hsp by (rewrite Hs; by apply Forall_app).
    rewrite Hw in Hsp. by apply Forall_app in Hsp as [? _].
  - destruct (Hends Hne) as [Hh Hl].
    rewrite Hs, (proj2 (trim_core w1 t w2 Hw1 Hw2 Hne Hh Hl)).
    rewrite COORD_REGEX_exec_spaces by done. by rewrite Hfree.
Qed.

(** Rewriting a rewritten line forgets the first position. *)
Lemma rewritten_rewritten line x y x' y' :
  COORD_REGEX_exec (lineWithoutCoords line) = None →
  rewritten (rewritten line x y) x' y' = rewritten line x' y'.
Proof.
  intros Hfree. rewrite lineWithoutCoords_trim in Hfree.
  apply COORD_REGEX_exec_trimEnd in Hfree.
  unfold rewritten. f_equal.
  pose proof (trimEnd_trimEnd (COORD_REGEX_remove line)) as Hidem.
  set (R := trimEnd (COORD_REGEX_remove line)) in *.
  unfold COORD_REGEX_remove.
  rewrite COORD_REGEX_exec_app by apply closed_off_suffix_of_position.
  rewrite Hfree, COORD_REGEX_exec_suffix, app_nil_r.
  by rewrite trimEnd_app by (by repeat constructor).
Qed.

(** X5.  The last write-back wins.  For a node whose line, once its first
    coordinate match is cut out, holds no further coordinate pattern,
    writing one position and then another gives the very text that writing
    the second position alone gives: positions do not pile up at the end
    of the line, and writing the same position twice is writing it once.
    (The bounds on the rounded positions mark the range in which the
    numerals of the model are the ones the program prints.) *)
Theorem last_writeback_wins (nodes : list NodeData) (code : jsstring) (nodeId : jsvalue)
    (node : NodeData) (line : jsstring) (x y x' y' : Q) :
  find (λ n, bool_decide (node_id n = nodeId)) nodes = Some node →
  (0 ≤ node_lineIndex node)%Z →
  str_split LF code !! Z.to_nat (node_lineIndex node) = Some line →
  COORD_REGEX_exec (lineWithoutCoords line) = None →
  Number_isSafeInteger (Math_round x) → Number_isSafeInteger (Math_round y) →
  Number_isSafeInteger (Math_round x') → Number_isSafeInteger (Math_round y') →
  updateCodePosition nodes (updateCodePosition nodes code nodeId x y) nodeId x' y'
  = updateCodePosition nodes code nodeId x' y'.
Proof.
  intros Hfind Hpos Hline Hfree _ _ _ _. unfold updateCodePosition. rewrite Hfind.
  pose proof (lookup_lt_Some _ _ _ Hline) as Hlt.
  rewrite (updateCodePosition_line_eq _ _ x' y' (rewritten line x y)); [|done|].
  - rewrite (updateCodePosition_line_in_range code _ x y line) by done.
    rewrite list_insert_insert_eq, rewritten_rewritten by done.
    by rewrite (updateCodePosition_line_eq code _ x' y' line).
  - rewrite (updateCodePosition_line_in_range code _ x y line) by done.
    by apply list_lookup_insert_eq.
Qed.

(** ** Write-back, then the parser *)

Section WritebackThenParse.

Context `{Spiral}.

Lemma processLine_sameShape st st' index line line' :
  sameShape st st' →
  skipped line' = skipped line → lineWithoutCoords line' = lineWithoutCoords line →
  sameShape (processLine st index line) (processLine st' index line').
Proof.
  intros (Hn & Hl & Hids) Hs Hlwc.
  assert (parts line' = parts line) as Hp by (unfold parts; by rewrite Hlwc).
  assert (command line' = command line) as Hc by (unfold command; by rewrite Hp).
  unfold processLine. rewrite Hs, Hc, Hp, Hlwc.
  destruct (skipped line); [done|].
  destruct (bool_decide (command line ∈ nodeCommands)).
  { unfold declareNode.
    destruct (finalPos _ _ (angle st)) as [a [fx fy]].
    destruct (finalPos _ _ (angle st')) as [a' [fx' fy']].
    unfold sameShape. simpl. rewrite !fmap_app, Hn, Hl, Hids. done. }
  destruct (bool_decide (command line ∈ specCommands)).
  { unfold declareSpec.
    destruct (finalPos _ _ (angle st)) as [a [fx fy]].
    destruct (finalPos _ _ (angle st')) as [a' [fx' fy']].
    unfold sameShape. simpl. rewrite !fmap_app, Hn, Hl, Hids. done. }
  destruct (bool_decide (command line = js "link")); [|done].
  unfold declareLink.
  destruct (truthy (parts line !! 1) && truthy (parts line !! 2)); [|done].
  unfold sameShape. simpl. by rewrite Hn, Hl, Hids.
Qed.

Lemma forEach_sameShape lines lines' st st' k :
  Forall2 (λ line line', skipped line' = skipped line
                         ∧ lineWithoutCoords line' = lineWithoutCoords line) lines lines' →
  sameShape st st' →
  sameShape (forEach processLine st k lines) (forEach processLine st' k lines').
Proof.
  intros Hall. revert st st' k.
  induction Hall as [|line line' lines lines' [Hs Hlwc] _ IH]; intros st st' k Hst; [done|].
  simpl. apply IH. by apply processLine_sameShape.
Qed.

(** The parse of a text in which the line of a node has been rewritten. *)
Lemma parse_rewritten_line code i line n newX newY :
  str_split LF code !! i = Some line →
  declaring line →
  COORD_REGEX_exec (lineWithoutCoords line) = None →
  newNodes (processLine (stateBefore (str_split LF code) i) i line)
    = newNodes (stateBefore (str_split LF code) i) ++ [n] →
  let d' := parseCode (updateCodePosition_line code (Z.of_nat i) newX newY) in
  moved n (Math_round newX) (Math_round newY) ∈ nodes d'
  ∧ shape <$> nodes d' = shape <$> nodes (parseCode code)
  ∧ links d' = links (parseCode code).
Proof.
  intros Hline Hd Hfree Hn. simpl.
  pose proof (lookup_lt_Some _ _ _ Hline) as Hlt.
  unfold parseCode. cbn [nodes links].
  rewrite (updateCodePosition_line_in_range code (Z.of_nat i) _ _ line)
    by (rewrite ?Nat2Z.id; (lia || done)).
  rewrite Nat2Z.id.
  set (lines := str_split LF code) in *.
  set (line' := rewritten line newX newY).
  split.
  { apply (node_of_line_in_parse (<[i:=line']> lines) i line').
    { by apply list_lookup_insert_eq. }
    unfold stateBefore. rewrite take_insert_ge by lia. fold (stateBefore lines i).
    by apply processLine_rewritten. }
  destruct (rewritten_line line newX newY (declaring_commands _ Hd) Hfree)
    as (_ & Hs' & Hlwc & _ & _).
  assert (sameShape (parseLines (<[i:=line']> lines)) (parseLines lines)) as (Hsh & Hl & _).
  { apply forEach_sameShape; [|done].
    rewrite <- (list_insert_id lines i line) at 2 by done.
    apply Forall2_insert.
    - apply Forall2_same_length_lookup_2; [done|]. intros j a b Ha Hb. by simplify_eq.
    - unfold line'. rewrite Hs', Hlwc. split; [apply Hd|done]. }
  done.
Qed.

(** X6.  Write-back to the line of a node, then the parser.  Take a node of
    a parse whose line, once its first coordinate match is cut out, holds no
    further coordinate pattern, and write any position to its line.  The
    new text parses to the same node at the rounded position; all nodes
    keep their id, type, label and line index, in the same order; and the
    links are the same.  (The bound on the rounded position marks the range
    in which the integers of the model are the doubles of the program.) *)
Theorem writeback_then_parse (code : jsstring) (n : NodeData) (line : jsstring)
    (nodes' : list NodeData) (nodeId : jsvalue) (node : NodeData) (newX newY : Q) :
  n ∈ nodes (parseCode code) →
  str_split LF code !! Z.to_nat (node_lineIndex n) = Some line →
  COORD_REGEX_exec (lineWithoutCoords line) = None →
  Number_isSafeInteger (Math_round newX) → Number_isSafeInteger (Math_round newY) →
  find (λ m, bool_decide (node_id m = nodeId)) nodes' = Some node →
  node_lineIndex node = node_lineIndex n →
  let d' := parseCode (updateCodePosition nodes' code nodeId newX newY) in
  moved n (Math_round newX) (Math_round newY) ∈ nodes d'
  ∧ shape <$> nodes d' = shape <$> nodes (parseCode code)
  ∧ links d' = links (parseCode code).
Proof.
  intros Hn Hline Hfree _ _ Hfind Hidx.
  apply node_in_parse_of_line in Hn as (i & line0 & Hi & Hline0 & Hd & Hn).
  rewrite Hi, Nat2Z.id in Hline. simplify_eq.
  unfold updateCodePosition. rewrite Hfind, Hidx, Hi.
  by apply (parse_rewritten_line code i line0 n).
Qed.

End WritebackThenParse.

(** ** Write-back to a line that had coordinates *)

Section WritebackElsewhere.

Context `{Spiral}.

(** The loop only ever appends to the nodes it holds: what it appends, and
    what it does to the links, the ids and the angle, does not depend on
    them. *)
Lemma processLine_nodes_frame st st' index line :
  newLinks st = newLinks st' → existingIds st = existingIds st' → angle st = angle st' →
  ∃ ns, newNodes (processLine st index line) = newNodes st ++ ns
        ∧ newNodes (processLine st' index line) = newNodes st' ++ ns
        ∧ newLinks (processLine st index line) = newLinks (processLine st' index line)
        ∧ existingIds (processLine st index line) = existingIds (processLine st' index line)
        ∧ angle (processLine st index line) = angle (processLine st' index line).
Proof.
  intros Hl Hids Ha. unfold processLine.
  destruct (skipped line).
  { exists []. by rewrite !app_nil_r. }
  destruct (bool_decide (command line ∈ nodeCommands)).
  { unfold declareNode. rewrite <- Hl, <- Hids, <- Ha.
    destruct (finalPos _ _ (angle st)) as [a [fx fy]]. cbn. eauto 10. }
  destruct (bool_decide (command line ∈ specCommands)).
  { unfold declareSpec. rewrite <- Hl, <- Hids, <- Ha.
    destruct (finalPos _ _ (angle st)) as [a [fx fy]]. cbn. eauto 10. }
  destruct (bool_decide (command line = js "link")).
  - unfold declareLink. rewrite <- Hl.
    destruct (truthy (parts line !! 1) && truthy (parts line !! 2)); cbn;
      exists []; by rewrite !app_nil_r.
  - exists []. by rewrite !app_nil_r.
Qed.

Lemma forEach_nodes_frame lines st st' k :
  newLinks st = newLinks st' → existingIds st = existingIds st' → angle st = angle st' →
  ∃ ns, newNodes (forEach processLine st k lines) = newNodes st ++ ns
        ∧ newNodes (forEach processLine st' k lines) = newNodes st' ++ ns.
Proof.
  revert st st' k. induction lines as [|line lines IH]; intros st st' k Hl Hids Ha; simpl.
  { exists []. by rewrite !app_nil_r. }
  destruct (processLine_nodes_frame st st' k line Hl Hids Ha)
    as (ns1 & E1 & E1' & Hl1 & Hids1 & Ha1).
  destruct (IH _ _ (S k) Hl1 Hids1 Ha1) as (ns2 & E2 & E2').
  exists (ns1 ++ ns2). rewrite E2, E2', E1, E1'. by rewrite !app_assoc.
Qed.

Lemma placedByDefault_coordMatch line :
  coordMatch line ≠ None → placedByDefault line = false.
Proof.
  intros Hm. unfold placedByDefault. rewrite (bool_decide_eq_false_2 _ Hm).
  apply andb_false_r.
Qed.

(** X7.  Write-back to a line that already had coordinates moves that node
    and nothing else.  If the line of the node holds a coordinate match
    and, once it is cut out, no further coordinate pattern, then the nodes
    of the new text are the nodes of the old one, in the same order, with
    the node of that line at the rounded position and every other node
    exactly where it was; the links are the same.  (The rounded position
    is taken among the safe integers, where the numerals of the model are
    the ones the program prints.) *)
Theorem writeback_moves_one_node (code : jsstring) (n : NodeData) (line : jsstring)
    (nodes' : list NodeData) (nodeId : jsvalue) (node : NodeData) (newX newY : Q) :
  n ∈ nodes (parseCode code) →
  str_split LF code !! Z.to_nat (node_lineIndex n) = Some line →
  coordMatch line ≠ None →
  COORD_REGEX_exec (lineWithoutCoords line) = None →
  Number_isSafeInteger (Math_round newX) → Number_isSafeInteger (Math_round newY) →
  find (λ m, bool_decide (node_id m = nodeId)) nodes' = Some node →
  node_lineIndex node = node_lineIndex n →
  let d' := parseCode (updateCodePosition nodes' code nodeId newX newY) in
  nodes d'
    = (λ m, if bool_decide (node_lineIndex m = node_lineIndex n)
            then moved m (Math_round newX) (Math_round newY) else m)
      <$> nodes (parseCode code)
  ∧ links d' = links (parseCode code).
Proof.
  intros Hn Hline Hm Hfree _ _ Hfind Hidx.
  apply node_in_parse_of_line in Hn as (i & line0 & Hi & Hline0 & Hd & Hn).
  rewrite Hi, Nat2Z.id in Hline. simplify_eq.
  unfold updateCodePosition. rewrite Hfind, Hidx, Hi.
  split; [|by apply (parse_rewritten_line code i line0 n)].
  pose proof (lookup_lt_Some _ _ _ Hline0) as Hlt.
  unfold parseCode. cbn [nodes].
  rewrite (updateCodePosition_line_in_range code (Z.of_nat i) _ _ line0)
    by (rewrite ?Nat2Z.id; (lia || done)).
  rewrite Nat2Z.id.
  set (lines := str_split LF code) in *.
  set (line' := rewritten line0 newX newY).
  assert (<[i:=line']> lines !! i = Some line') as Hline' by (by apply list_lookup_insert_eq).
  rewrite (parseLines_middle _ i line' Hline'), (parseLines_middle lines i line0 Hline0).
  unfold stateBefore at 1. rewrite take_insert_ge, drop_insert_lt by lia.
  fold (stateBefore lines i).
  set (sb := stateBefore lines i) in *.
  destruct (rewritten_line line0 newX newY (declaring_commands _ Hd) Hfree)
    as (_ & Hs' & Hlwc & Hx & _).
  assert (sameShape (processLine sb i line') (processLine sb i line0)) as (_ & Hl1 & Hids1).
  { apply processLine_sameShape; unfold line'; [done|rewrite Hs'; apply Hd|by rewrite Hlwc]. }
  assert (angle (processLine sb i line') = angle (processLine sb i line0)) as Ha1.
  { rewrite !processLine_angle, !placedByDefault_coordMatch; [done|done|].
    unfold line', coord_x in *. by destruct (coordMatch (rewritten line0 newX newY)). }
  destruct (forEach_nodes_frame (drop (S i) lines) _ _ (S i) Hl1 Hids1 Ha1)
    as (ns2 & -> & E2).
  destruct (forEach_nodes (drop (S i) lines) (processLine sb i line0) (S i))
    as (ns2' & E2' & Hall2).
  rewrite E2 in E2'. apply app_inv_head in E2'. subst ns2'. rewrite E2. clear E2.
  destruct (forEach_nodes (take i lines) initialState 0) as (ns1 & Hns1 & Hall1).
  fold (parseLines (take i lines)) in Hns1. fold (stateBefore lines i) in Hns1.
  fold sb in Hns1. simpl in Hns1.
  unfold line'. rewrite (processLine_rewritten sb i line0 n) by done.
  rewrite Hn, Hns1, !fmap_app. simpl.
  rewrite Hi, bool_decide_eq_true_2 by done.
  f_equal; [f_equal|].
  - clear -Hall1. induction Hall1 as [|m ns1 Hm _ IH]; [done|].
    rewrite length_take in Hm.
    rewrite fmap_cons, <- IH, bool_decide_eq_false_2; [done|lia].
  - clear -Hall2. induction Hall2 as [|m ns2 Hm _ IH]; [done|].
    rewrite fmap_cons, <- IH, bool_decide_eq_false_2; [done|lia].
Qed.

End WritebackElsewhere.

(** ** The ids of the nodes *)

Lemma indexSuffixed_suffix a n : indexSuffixed (a ++ js "_" ++ decimal n) = true.
Proof.
  unfold indexSuffixed. rewrite !reverse_app, <- app_assoc.
  change (reverse (js "_") ++ reverse a) with (chr "_" :: reverse a).
  assert (Forall (λ c, is_digit c = true) (reverse (decimal n))) as Hd.
  { apply Forall_reverse, decimal_digits. }
  rewrite takeWhile_app, dropWhile_app, dropWhile_stop by done.
  destruct (reverse (decimal n)) eqn:E; [|by apply bool_decide_eq_true_2].
  apply (f_equal reverse) in E. rewrite reverse_involutive in E.
  by apply decimal_not_nil in E.
Qed.

Lemma plainOrIndexed_mono k k' v : k ≤ k' → plainOrIndexed k v → plainOrIndexed k' v.
Proof.
  intros Hk. destruct v as [s|]; [|done].
  intros [Hp|(a & j & Hj & ->)]; [by left|right]. exists a, j. split; [lia|done].
Qed.

(** A text suffixed with the index of the current line is no id of an
    earlier line. *)
Lemma suffixed_fresh k ids a :
  Forall (plainOrIndexed k) ids → Some (a ++ js "_" ++ decimal (N.of_nat k)) ∉ ids.
Proof.
  intros Hall Hin. eapply Forall_forall in Hall; [|done].
  destruct Hall as [Hp|(a' & j & Hj & E)].
  - by rewrite indexSuffixed_suffix in Hp.
  - apply suffixed_inj in E. lia.
Qed.

Lemma NoDup_fmap_eq {A B} (f : A → B) (l : list A) x y :
  NoDup (f <$> l) → x ∈ l → y ∈ l → f x = f y → x = y.
Proof.
  induction l as [|a l IH]; simpl; [by intros _ ?%elem_of_nil|].
  intros [Ha Hnd]%NoDup_cons [->|Hx]%elem_of_cons [->|Hy]%elem_of_cons E; [done|..].
  - exfalso. apply Ha. rewrite E. by apply list_elem_of_fmap_2.
  - exfalso. apply Ha. rewrite <- E. by apply list_elem_of_fmap_2.
  - by apply IH.
Qed.

Section Ids.

Context `{Spiral}.

(** What a line does to the ids: a declaring line records the id of its
    node, which is either the token after the command, not recorded
    before, or a text suffixed with the index of the line. *)
Lemma processLine_ids st index line :
  if declares line
  then ∃ n, newNodes (processLine st index line) = newNodes st ++ [n]
            ∧ existingIds (processLine st index line) = {[ node_id n ]} ∪ existingIds st
            ∧ node_lineIndex n = Z.of_nat index
            ∧ ((node_id n = parts line !! 1 ∧ node_id n ∉ existingIds st)
               ∨ ∃ a, node_id n = Some (a ++ js "_" ++ decimal (N.of_nat index)))
  else newNodes (processLine st index line) = newNodes st
       ∧ existingIds (processLine st index line) = existingIds st.
Proof.
  unfold declares, processLine. destruct (skipped line); cbn [negb andb]; [done|].
  destruct (bool_decide (command line ∈ nodeCommands)); cbn [orb].
  { unfold declareNode. destruct (finalPos _ _ _) as [a [fx fy]]. cbn.
    eexists. split_and!; [done..|].
    destruct (bool_decide (command line ∈ attributeCommands)
              || bool_decide (parts line !! 1 ∈ existingIds st)) eqn:E.
    - right. by eexists.
    - left. apply orb_false_iff in E as [_ E%bool_decide_eq_false]. done. }
  destruct (bool_decide (command line ∈ specCommands)).
  { unfold declareSpec. destruct (finalPos _ _ _) as [a [fx fy]]. cbn.
    eexists. split_and!; [done..|].
    case_bool_decide as E.
    - right. by eexists.
    - destruct (parts line !! 1) as [[|c s]|]; cbn in *.
      + right. by exists (js "spec").
      + left. done.
      + right. by exists (js "spec"). }
  destruct (bool_decide (command line = js "link")); [|done].
  unfold declareLink.
  by destruct (truthy (parts line !! 1) && truthy (parts line !! 2)).
Qed.

Lemma processLine_idsRecorded st index line :
  idsRecorded st → idsRecorded (processLine st index line).
Proof.
  intros Hst v. pose proof (processLine_ids st index line) as Hl.
  destruct (declares line).
  - destruct Hl as (n & -> & -> & _).
    rewrite elem_of_union, elem_of_singleton, fmap_app, elem_of_app, (Hst v).
    simpl. rewrite list_elem_of_singleton. tauto.
  - destruct Hl as [-> ->]. apply Hst.
Qed.

Lemma forEach_idsRecorded lines st k :
  idsRecorded st → idsRecorded (forEach processLine st k lines).
Proof.
  revert st k. induction lines as [|line lines IH]; intros st k Hst; simpl; [done|].
  by apply IH, processLine_idsRecorded.
Qed.

Lemma idsRecorded_initialState : idsRecorded initialState.
Proof. intros v. simpl. rewrite elem_of_empty, elem_of_nil. done. Qed.

Lemma processLine_idsDistinct st k line :
  plainLabel line = true → idsDistinct k st → idsDistinct (S k) (processLine st k line).
Proof.
  intros Hplain (Hrec & Hnd & Hall).
  split; [by apply processLine_idsRecorded|].
  pose proof (processLine_ids st k line) as Hl. unfold plainLabel in Hplain.
  destruct (declares line); cbn [negb orb] in Hplain.
  - destruct Hl as (n & -> & _ & _ & Hid). rewrite fmap_app. simpl.
    assert ((node_id n ∉ node_id <$> newNodes st) ∧ plainOrIndexed (S k) (node_id n))
      as [Hfresh Hclass].
    { destruct Hid as [[Hid Hfresh]|(a & Hid)].
      - split; [by rewrite <- (Hrec _)|]. rewrite Hid.
        destruct (parts line !! 1) as [token|]; [|done]. left.
        by apply negb_true_iff.
      - rewrite Hid. split; [by apply suffixed_fresh|].
        right. exists a, k. split; [lia|done]. }
    split.
    + apply NoDup_app. split_and!; [done| |apply NoDup_singleton].
      intros v Hv ->%list_elem_of_singleton. done.
    + apply Forall_app. split; [|by repeat constructor].
      eapply Forall_impl; [done|]. intros v. apply plainOrIndexed_mono. lia.
  - destruct Hl as [-> _]. split; [done|].
    eapply Forall_impl; [done|]. intros v. apply plainOrIndexed_mono. lia.
Qed.

Lemma forEach_idsDistinct lines st k :
  Forall (λ line, plainLabel line = true) lines →
  idsDistinct k st → idsDistinct (k + length lines) (forEach processLine st k lines).
Proof.
  intros Hall. revert st k.
  induction Hall as [|line lines Hl _ IH]; intros st k Hst; simpl.
  { by rewrite Nat.add_0_r. }
  replace (k + S (length lines)) with (S k + length lines) by lia.
  by apply IH, processLine_idsDistinct.
Qed.

Lemma parse_ids_NoDup code :
  Forall (λ line, plainLabel line = true) (str_split LF code) →
  NoDup (node_id <$> nodes (parseCode code)).
Proof.
  intros Hall. unfold parseCode, parseLines. cbn [nodes].
  apply (forEach_idsDistinct _ initialState 0 Hall).
  split; [apply idsRecorded_initialState|]. simpl. split; constructor.
Qed.

(** X8.  Ids are distinct when no label looks like a suffixed id.  If, on
    every line that declares a node, the token after the command does not
    end with an underscore followed by digits, then the ids of the nodes of
    the parse are pairwise distinct: two nodes with the same id are the
    same node. *)
Theorem ids_distinct_for_plain_labels (code : jsstring) :
  Forall (λ line, plainLabel line = true) (str_split LF code) →
  NoDup (node_id <$> nodes (parseCode code))
  ∧ ∀ n m, n ∈ nodes (parseCode code) → m ∈ nodes (parseCode code) →
           node_id n = node_id m → n = m.
Proof.
  intros Hall. pose proof (parse_ids_NoDup code Hall) as Hnd.
  split; [done|]. intros n m Hn Hm E.
  by apply (NoDup_fmap_eq node_id (nodes (parseCode code))).
Qed.

End Ids.

(** ** The id of an entity or a relationship *)

Section IdRule.

Context `{Spiral}.

(** The nodes held when line [i] is reached are the nodes of the parse
    that come from earlier lines. *)
Lemma nodes_before_line lines i line m :
  lines !! i = Some line →
  m ∈ newNodes (stateBefore lines i)
  ↔ m ∈ newNodes (parseLines lines) ∧ (node_lineIndex m < Z.of_nat i)%Z.
Proof.
  intros Hline. pose proof (lookup_lt_Some _ _ _ Hline) as Hlt.
  rewrite (parseLines_middle lines i line Hline).
  destruct (forEach_nodes (drop (S i) lines) (processLine (stateBefore lines i) i line) (S i))
    as (ns2 & -> & Hall2).
  destruct (forEach_nodes (take i lines) initialState 0) as (ns1 & Hns1 & Hall1).
  fold (parseLines (take i lines)) in Hns1. fold (stateBefore lines i) in Hns1.
  simpl in Hns1. rewrite length_take in Hall1.
  assert (m ∈ newNodes (stateBefore lines i) → (node_lineIndex m < Z.of_nat i)%Z) as Hbefore.
  { rewrite Hns1. intros Hm. eapply Forall_forall in Hall1; [|done]. simpl in Hall1. lia. }
  split.
  - intros Hm. split; [|by apply Hbefore]. apply elem_of_app. left.
    destruct (processLine_nodes (stateBefore lines i) i line) as [->|(n & -> & _)]; [done|].
    apply elem_of_app. by left.
  - intros [[Hm|Hm]%elem_of_app Hlt'].
    + destruct (processLine_nodes (stateBefore lines i) i line) as [E|(n & E & _ & Hi)];
        rewrite E in Hm; [done|].
      apply elem_of_app in Hm as [Hm|Hm]; [done|].
      apply list_elem_of_singleton in Hm. subst m. lia.
    + eapply Forall_forall in Hall2; [|done]. simpl in Hall2. lia.
Qed.

Lemma declareNode_id st index cmd ps x y n :
  newNodes (declareNode st index cmd ps x y) = newNodes st ++ [n] →
  node_label n = ps !! 1
  ∧ node_id n = if bool_decide (cmd ∈ attributeCommands) || bool_decide (ps !! 1 ∈ existingIds st)
                then Some (template (ps !! 1) ++ js "_" ++ decimal (N.of_nat index))
                else ps !! 1.
Proof.
  unfold declareNode. destruct (finalPos _ _ _) as [a [fx fy]]. cbn.
  by intros <-%app_inj_tail%proj2.
Qed.

(** X9.  The id of a node that is not an attribute.  On an unskipped line
    whose command is [ent], [weak_ent], [rel] or [ident_rel], the node takes
    the token after the command as its id when no node of an earlier line
    has that id, and that token followed by an underscore and the index of
    the line otherwise. *)
Theorem node_id_rule (code : jsstring) (i : nat) (line : jsstring) :
  str_split LF code !! i = Some line →
  skipped line = false →
  command line ∈ nodeCommands → command line ∉ attributeCommands →
  ∃ n, n ∈ nodes (parseCode code)
       ∧ node_lineIndex n = Z.of_nat i
       ∧ node_label n = parts line !! 1
       ∧ ((∃ m, m ∈ nodes (parseCode code) ∧ (node_lineIndex m < Z.of_nat i)%Z
                ∧ node_id m = parts line !! 1)
          → node_id n = Some (template (parts line !! 1) ++ js "_" ++ decimal (N.of_nat i)))
       ∧ ((¬ ∃ m, m ∈ nodes (parseCode code) ∧ (node_lineIndex m < Z.of_nat i)%Z
                  ∧ node_id m = parts line !! 1)
          → node_id n = parts line !! 1).
Proof.
  intros Hline Hs Hcmd Hatt. unfold parseCode. cbn [nodes].
  set (lines := str_split LF code) in *. set (sb := stateBefore lines i).
  assert (processLine sb i line
          = declareNode sb i (command line) (parts line) (coord_x line) (coord_y line)) as Hp.
  { unfold processLine. by rewrite Hs, (bool_decide_eq_true_2 _ Hcmd). }
  destruct (declareNode_nodes sb i (command line) (parts line) (coord_x line) (coord_y line))
    as (n & Hn & Hi & _).
  destruct (declareNode_id _ _ _ _ _ _ _ Hn) as [Hlabel Hid].
  rewrite (bool_decide_eq_false_2 _ Hatt) in Hid. cbn [orb] in Hid.
  assert (idsRecorded sb) as Hrec.
  { apply forEach_idsRecorded, idsRecorded_initialState. }
  assert (parts line !! 1 ∈ existingIds sb
          ↔ ∃ m, m ∈ newNodes (parseLines lines) ∧ (node_lineIndex m < Z.of_nat i)%Z
                 ∧ node_id m = parts line !! 1) as Hearlier.
  { rewrite (Hrec _), list_elem_of_fmap. split.
    - intros (m & E & Hm). exists m.
      apply (nodes_before_line lines i line m Hline) in Hm as [Hm Hlt]. done.
    - intros (m & Hm & Hlt & E). exists m. split; [done|].
      by apply (nodes_before_line lines i line m Hline). }
  exists n. split_and!; [|done|done|..].
  - apply (node_of_line_in_parse lines i line); [done|]. fold sb. by rewrite Hp.
  - intros Hex%Hearlier. by rewrite Hid, (bool_decide_eq_true_2 _ Hex).
  - intros Hno. rewrite Hid, bool_decide_eq_false_2; [done|]. by rewrite Hearlier.
Qed.

End IdRule.

(** ** The tokens of a line *)

Lemma split_spaces_acc_nonempty s cur b :
  nonspace (last s) → (b = false → cur ≠ []) → (s = [] → cur ≠ []) →
  Forall (λ t, t ≠ []) (split_spaces_acc cur b s).
Proof.
  revert cur b. induction s as [|c s IH]; intros cur b Hlast Hb Hnil; simpl.
  { repeat constructor. intros E. apply (f_equal reverse) in E.
    rewrite reverse_involutive in E. by apply Hnil. }
  assert (s ≠ [] → nonspace (last s)) as Hlast'.
  { intros Hs. destruct s; [done|]. done. }
  destruct (is_space c) eqn:Hc.
  - assert (s ≠ []) as Hs.
    { intros ->. simpl in Hlast. congruence. }
    destruct b.
    + apply IH; [by apply Hlast'|done|done].
    + constructor.
      * intros E. apply (f_equal reverse) in E. rewrite reverse_involutive in E. by apply Hb.
      * apply IH; [by apply Hlast'|done|done].
  - apply IH; [|done|done]. destruct s; [done|]. done.
Qed.

(** The tokens of a line are not empty, unless the line has none. *)
Lemma parts_nonempty line :
  lineWithoutCoords line ≠ [] → Forall (λ t, t ≠ []) (parts line).
Proof.
  intros Hne. unfold parts, split_spaces.
  destruct (trim_split (COORD_REGEX_remove (cleanLine line))) as (_ & _ & _ & _ & _ & Hends).
  fold (lineWithoutCoords line) in Hends. destruct (Hends Hne) as [Hh Hl].
  destruct (lineWithoutCoords line) as [|c t]; [done|]. simpl in Hh. simpl. rewrite Hh.
  apply split_spaces_acc_nonempty; [|done|done].
  destruct t; [done|]. done.
Qed.

Lemma parts_truthy line k token :
  parts line !! S k = Some token → truthy (parts line !! S k) = true.
Proof.
  intros Hk. destruct (decide (lineWithoutCoords line = [])) as [E|Hne].
  { unfold parts in Hk. by rewrite E in Hk. }
  pose proof (parts_nonempty line Hne) as Hall.
  eapply Forall_lookup_1 in Hall; [|done]. rewrite Hk. by destruct token.
Qed.

(** ** The links of a parse *)

Lemma truthy_suffixed a b : truthy (Some (a ++ js "_" ++ b)) = true.
Proof. by destruct a. Qed.

Section Links.

Context `{Spiral}.

(** What a declaring line adds: its node, and the link of the shorthand to
    the id that the node has received. *)
Lemma processLine_shorthand st index line :
  declares line = true →
  ∃ n, newNodes (processLine st index line) = newNodes st ++ [n]
       ∧ node_lineIndex n = Z.of_nat index
       ∧ (node_id n = parts line !! 1 ∨ ∃ s, s ≠ [] ∧ node_id n = Some s)
       ∧ newLinks (processLine st index line)
         = newLinks st
           ++ shorthand (parts line) (node_id n)
                (if bool_decide (command line ∈ nodeCommands) then Solid else Double).
Proof.
  unfold declares, processLine. destruct (skipped line); cbn [negb andb]; [done|].
  destruct (bool_decide (command line ∈ nodeCommands)); cbn [orb].
  { intros _. unfold declareNode. destruct (finalPos _ _ _) as [a [fx fy]]. cbn.
    eexists. split_and!; [done|done| |done].
    destruct (bool_decide (command line ∈ attributeCommands)
              || bool_decide (parts line !! 1 ∈ existingIds st)); [right|by left].
    eexists. split; [|done]. by destruct (template (parts line !! 1)). }
  destruct (bool_decide (command line ∈ specCommands)); [intros _|done].
  unfold declareSpec. destruct (finalPos _ _ _) as [a [fx fy]]. cbn.
  eexists. split_and!; [done|done| |done].
  right. eexists. split; [|done].
  case_bool_decide.
  - by intros [_ ?]%app_eq_nil.
  - by destruct (parts line !! 1) as [[|c s]|].
Qed.

Lemma processLine_links_endpoints st index line :
  Forall (λ l, truthy (link_source l) = true ∧ truthy (link_target l) = true) (newLinks st) →
  Forall (λ l, truthy (link_source l) = true ∧ truthy (link_target l) = true)
    (newLinks (processLine st index line)).
Proof.
  intros Hst. destruct (declares line) eqn:Hd.
  - destruct (processLine_shorthand st index line Hd) as (n & _ & _ & Hid & ->).
    apply Forall_app. split; [done|]. unfold shorthand.
    destruct (bool_decide (parts line !! 2 = Some (js "->"))) eqn:Harrow; [|constructor].
    destruct (truthy (parts line !! 3)) eqn:Howner; repeat constructor; simpl; [done|].
    destruct Hid as [->|(s & Hs & ->)]; [|by destruct s].
    apply bool_decide_eq_true in Harrow.
    pose proof (lookup_lt_Some _ _ _ Harrow) as Hlen.
    destruct (lookup_lt_is_Some_2 (parts line) 1) as [token Htoken]; [lia|].
    by apply (parts_truthy line 0 token).
  - unfold declares in Hd. unfold processLine.
    destruct (skipped line); cbn [negb andb] in Hd; [done|].
    apply orb_false_iff in Hd as [-> ->].
    destruct (bool_decide (command line = js "link")); [|done].
    unfold declareLink.
    destruct (truthy (parts line !! 1) && truthy (parts line !! 2)) eqn:G; [|done].
    apply andb_true_iff in G. simpl. apply Forall_app. split; [done|].
    by apply Forall_singleton.
Qed.

(** X10.  No link of a parse lacks an endpoint: the source and the target
    of every link are texts that are neither [undefined] nor empty, for the
    links of [link] lines and for those of the shorthand alike. *)
Theorem links_have_endpoints (code : jsstring) (l : LinkData) :
  l ∈ links (parseCode code) →
  truthy (link_source l) = true ∧ truthy (link_target l) = true.
Proof.
  unfold parseCode, parseLines. cbn [links].
  enough (∀ lines st k,
            Forall (λ l, truthy (link_source l) = true ∧ truthy (link_target l) = true)
              (newLinks st) →
            Forall (λ l, truthy (link_source l) = true ∧ truthy (link_target l) = true)
              (newLinks (forEach processLine st k lines))) as Hloop.
  { intros Hl. specialize (Hloop (str_split LF code) initialState 0 (Forall_nil_2 _)).
    by eapply Forall_forall in Hloop. }
  clear. induction lines as [|line lines IH]; intros st k Hst; simpl; [done|].
  by apply IH, processLine_links_endpoints.
Qed.

(** X11.  The shorthand links the owner to the node of its own line.  On a
    declaring line whose third token is the arrow and whose fourth token is
    there, the parse holds a link from that fourth token to the id that the
    node of the line has received (suffixed or not), without label, solid
    for a node command and double for [spec] and [union]. *)
Theorem shorthand_link (code : jsstring) (i : nat) (line : jsstring) :
  str_split LF code !! i = Some line →
  declares line = true →
  parts line !! 2 = Some (js "->") → truthy (parts line !! 3) = true →
  ∃ n l, n ∈ nodes (parseCode code) ∧ node_lineIndex n = Z.of_nat i
         ∧ l ∈ links (parseCode code)
         ∧ link_source l = parts line !! 3
         ∧ link_target l = node_id n
         ∧ link_label l = []
         ∧ link_style l = if bool_decide (command line ∈ nodeCommands) then Solid else Double.
Proof.
  intros Hline Hd Harrow Howner. unfold parseCode. cbn [nodes links].
  set (lines := str_split LF code) in *.
  destruct (processLine_shorthand (stateBefore lines i) i line Hd) as (n & Hn & Hi & _ & Hl).
  unfold shorthand in Hl.
  rewrite (bool_decide_eq_true_2 _ Harrow), Howner in Hl. cbn [andb] in Hl.
  exists n, {| link_source := parts line !! 3; link_target := node_id n;
               link_label := [];
               link_style := if bool_decide (command line ∈ nodeCommands)
                             then Solid else Double |}.
  split_and!; [|done| |done..].
  - by apply (node_of_line_in_parse lines i line).
  - rewrite (parseLines_middle lines i line Hline).
    destruct (forEach_links (drop (S i) lines) (processLine (stateBefore lines i) i line) (S i))
      as (ls & ->).
    rewrite Hl, !elem_of_app, list_elem_of_singleton. left. by right.
Qed.

End Links.

(** ** A drag, from the parse to the parse *)

Lemma find_by_id (ns : list NodeData) (n : NodeData) :
  NoDup (node_id <$> ns) → n ∈ ns →
  find (λ m, bool_decide (node_id m = node_id n)) ns = Some n.
Proof.
  induction ns as [|a ns IH]; [by intros _ ?%elem_of_nil|].
  intros Hnd Hin. simpl. case_bool_decide as E.
  - f_equal. apply (NoDup_fmap_eq node_id (a :: ns)); [done|by left|done|done].
  - apply IH; [by apply NoDup_cons in Hnd as [_ ?]|].
    by apply elem_of_cons in Hin as [->|?].
Qed.

Lemma plainLabel_rewritten line newX newY :
  declaring line → COORD_REGEX_exec (lineWithoutCoords line) = None →
  plainLabel (rewritten line newX newY) = plainLabel line.
Proof.
  intros Hd Hfree.
  destruct (rewritten_line line newX newY (declaring_commands _ Hd) Hfree)
    as (_ & Hs' & Hlwc & _ & _).
  unfold plainLabel, declares, command, parts. rewrite Hs', Hlwc. by rewrite (proj1 Hd).
Qed.

Section Drag.

Context `{Spiral}.

(** X12.  A drag, from the parse to the parse.  Take a document in which
    no label of a declaring line ends like a suffixed id, the nodes of its
    parse as the nodes of the component, and one of them whose line, once
    its first coordinate match is cut out, holds no further coordinate
    pattern.  Writing a position back under the id of that node rewrites
    the line of that very node: the new text parses to the node at the
    rounded position, the ids of the nodes are the same, and the new text
    again has plain labels, so that the next drag finds its node as well.
    (The rounded position is taken among the safe integers.) *)
Theorem drag_persists (code : jsstring) (n : NodeData) (line : jsstring) (newX newY : Q) :
  Forall (λ line, plainLabel line = true) (str_split LF code) →
  n ∈ nodes (parseCode code) →
  str_split LF code !! Z.to_nat (node_lineIndex n) = Some line →
  COORD_REGEX_exec (lineWithoutCoords line) = None →
  Number_isSafeInteger (Math_round newX) → Number_isSafeInteger (Math_round newY) →
  let code' := updateCodePosition (nodes (parseCode code)) code (node_id n) newX newY in
  moved n (Math_round newX) (Math_round newY) ∈ nodes (parseCode code')
  ∧ node_id <$> nodes (parseCode code') = node_id <$> nodes (parseCode code)
  ∧ Forall (λ line, plainLabel line = true) (str_split LF code').
Proof.
  intros Hplain Hn Hline Hfree _ _ code'. subst code'.
  unfold updateCodePosition.
  rewrite (find_by_id _ n (parse_ids_NoDup code Hplain) Hn).
  apply node_in_parse_of_line in Hn as (i & line0 & Hi & Hline0 & Hd & Hn).
  rewrite Hi, Nat2Z.id in Hline. simplify_eq. rewrite Hi.
  destruct (parse_rewritten_line code i line0 n newX newY Hline0 Hd Hfree Hn)
    as (Hmoved & Hshape & _).
  split_and!; [done| |].
  - apply (f_equal (fmap (λ s : jsvalue * NodeType * jsvalue * jsvalue * Z, s.1.1.1.1)))
      in Hshape.
    by rewrite <- !list_fmap_compose in Hshape.
  - rewrite (updateCodePosition_line_in_range code (Z.of_nat i) _ _ line0)
      by (rewrite ?Nat2Z.id; (lia || done)).
    rewrite Nat2Z.id. apply Forall_insert; [done|].
    rewrite plainLabel_rewritten by done.
    eapply Forall_lookup_1 in Hplain; done.
Qed.

End Drag.

(** ** The id of a specialization or a union *)

Lemma specCommands_not_nodeCommands cmd : cmd ∈ specCommands → cmd ∉ nodeCommands.
Proof.
  unfold specCommands. rewrite !elem_of_cons, elem_of_nil.
  intros [->|[->|[]]]; by apply (bool_decide_unpack _).
Qed.

Section SpecIdRule.

Context `{Spiral}.

Lemma declareSpec_id st index cmd ps x y n :
  newNodes (declareSpec st index cmd ps x y) = newNodes st ++ [n] →
  let token := or_else (ps !! 1) (js "spec_" ++ decimal (N.of_nat index)) in
  node_type n = (if decide (cmd = js "union") then UnionNode else Specialization)
  ∧ node_label n
    = Some (or_else (ps !! 1) (if decide (cmd = js "union") then js "u" else js "d"))
  ∧ node_meta n = node_label n
  ∧ node_id n = Some (if bool_decide (Some token ∈ existingIds st)
                      then token ++ js "_" ++ decimal (N.of_nat index)
                      else token).
Proof.
  unfold declareSpec. destruct (finalPos _ _ _) as [a [fx fy]]. cbn.
  by intros <-%app_inj_tail%proj2.
Qed.

(** X13.  The node of a [spec] or [union] line.  Its label and its meta are
    the token after the command, or [d] ([u] for [union]) when there is
    none.  Its id is that token, or [spec_] followed by the index of the
    line when there is none, as long as no node of an earlier line has
    that id; otherwise an underscore and the index of the line are added
    to it. *)
Theorem spec_id_rule (code : jsstring) (i : nat) (line : jsstring) :
  str_split LF code !! i = Some line →
  skipped line = false →
  command line ∈ specCommands →
  let token := or_else (parts line !! 1) (js "spec_" ++ decimal (N.of_nat i)) in
  ∃ n, n ∈ nodes (parseCode code)
       ∧ node_lineIndex n = Z.of_nat i
       ∧ node_type n = (if decide (command line = js "union") then UnionNode else Specialization)
       ∧ node_label n
         = Some (or_else (parts line !! 1)
                   (if decide (command line = js "union") then js "u" else js "d"))
       ∧ node_meta n = node_label n
       ∧ ((∃ m, m ∈ nodes (parseCode code) ∧ (node_lineIndex m < Z.of_nat i)%Z
                ∧ node_id m = Some token)
          → node_id n = Some (token ++ js "_" ++ decimal (N.of_nat i)))
       ∧ ((¬ ∃ m, m ∈ nodes (parseCode code) ∧ (node_lineIndex m < Z.of_nat i)%Z
                  ∧ node_id m = Some token)
          → node_id n = Some token).
Proof.
  intros Hline Hs Hcmd token. unfold parseCode. cbn [nodes].
  set (lines := str_split LF code) in *. set (sb := stateBefore lines i).
  assert (processLine sb i line
          = declareSpec sb i (command line) (parts line) (coord_x line) (coord_y line)) as Hp.
  { unfold processLine.
    rewrite Hs, (bool_decide_eq_false_2 _ (specCommands_not_nodeCommands _ Hcmd)).
    by rewrite (bool_decide_eq_true_2 _ Hcmd). }
  destruct (declareSpec_nodes sb i (command line) (parts line) (coord_x line) (coord_y line))
    as (n & Hn & Hi & _).
  destruct (declareSpec_id _ _ _ _ _ _ _ Hn) as (Htype & Hlabel & Hmeta & Hid).
  fold token in Hid.
  assert (idsRecorded sb) as Hrec.
  { apply forEach_idsRecorded, idsRecorded_initialState. }
  assert (Some token ∈ existingIds sb
          ↔ ∃ m, m ∈ newNodes (parseLines lines) ∧ (node_lineIndex m < Z.of_nat i)%Z
                 ∧ node_id m = Some token) as Hearlier.
  { rewrite (Hrec _), list_elem_of_fmap. split.
    - intros (m & E & Hm). exists m.
      apply (nodes_before_line lines i line m Hline) in Hm as [Hm Hlt]. done.
    - intros (m & Hm & Hlt & E). exists m. split; [done|].
      by apply (nodes_before_line lines i line m Hline). }
  exists n. split_and!; [|done..| |].
  - apply (node_of_line_in_parse lines i line); [done|]. fold sb. by rewrite Hp.
  - intros Hex%Hearlier. by rewrite Hid, (bool_decide_eq_true_2 _ Hex).
  - intros Hno. rewrite Hid, bool_decide_eq_false_2; [done|]. by rewrite Hearlier.
Qed.

End SpecIdRule.

(** ** The texts that the coordinate pattern matches *)

(** X14.  What [COORD_REGEX] finds in a text.  The match is a text made of
    an opening parenthesis, white space or none, an integer (digits, with
    or without a minus sign before them), a comma right after it, white
    space or none, a second integer, white space or none, and a closing
    parenthesis; the two captures are the two integers, and no text of
    that make starts further to the left.  Any text split in this way is
    matched in this way. *)
Theorem coordinate_match (s before g1 g2 rest : jsstring) :
  COORD_REGEX_exec s = Some (before, (g1, g2), rest)
  ↔ (∃ m, s = before ++ m ++ rest ∧ coord_shape m g1 g2)
    ∧ ∀ k, k < length before →
           ¬ ∃ m h1 h2 r, drop k s = m ++ r ∧ coord_shape m h1 h2.
Proof.
  split.
  - intros Hexec. split; [by apply COORD_REGEX_exec_Some|].
    intros k Hk (m & h1 & h2 & r & Hdrop & Hm).
    pose proof (regex_exec_leftmost _ _ _ _ _ k Hexec Hk) as Hnone.
    rewrite Hdrop, (COORD_REGEX_at_complete m h1 h2 r Hm) in Hnone. done.
  - intros [(m & -> & Hm) Hleft]. unfold COORD_REGEX_exec.
    induction before as [|c before IH].
    + apply regex_exec_here. simpl. by apply COORD_REGEX_at_complete.
    + rewrite <- app_comm_cons.
      assert (COORD_REGEX_at (c :: before ++ m ++ rest) = None) as Hnone.
      { destruct (COORD_REGEX_at (c :: before ++ m ++ rest)) as [[[h1 h2] r]|] eqn:E; [|done].
        apply COORD_REGEX_at_sound in E as (m' & E & Hm').
        exfalso. apply (Hleft 0); [simpl; lia|]. by exists m', h1, h2, r. }
      rewrite regex_exec_next by done. rewrite IH; [done|].
      intros k Hk. apply (Hleft (S k)). simpl. lia.
Qed.

(** ** The nodes that a link is drawn between *)

Lemma find_by_id_None (ns : list NodeData) (v : jsvalue) :
  find (λ m, bool_decide (node_id m = v)) ns = None ↔ v ∉ node_id <$> ns.
Proof.
  induction ns as [|a ns IH]; simpl.
  { split; [intros _; apply not_elem_of_nil|done]. }
  rewrite not_elem_of_cons. case_bool_decide as E.
  - split; [done|]. intros [? _]. done.
  - rewrite IH. split; [|tauto]. intros ?. split; [congruence|done].
Qed.

Section DrawnLinks.

Context `{Spiral}.

(** X15.  The nodes that a link is drawn between.  In the parse of a
    document whose labels are plain, a link is drawn exactly when each of
    its two ends is the id of a node, and then it is drawn between the one
    node that has the source as its id and the one node that has the
    target as its id; a link with an end that no node has as its id is
    kept in the model and not drawn. *)
Theorem link_drawn_between (code : jsstring) (l : LinkData) :
  Forall (λ line, plainLabel line = true) (str_split LF code) →
  (∀ s t, s ∈ nodes (parseCode code) → t ∈ nodes (parseCode code) →
          node_id s = link_source l → node_id t = link_target l →
          renderLinks_nodes (nodes (parseCode code)) l = Some (s, t))
  ∧ (renderLinks_nodes (nodes (parseCode code)) l = None
     ↔ link_source l ∉ node_id <$> nodes (parseCode code)
       ∨ link_target l ∉ node_id <$> nodes (parseCode code)).
Proof.
  intros Hplain. pose proof (parse_ids_NoDup code Hplain) as Hnd.
  unfold renderLinks_nodes. split.
  - intros s t Hs Ht <- <-. by rewrite !find_by_id.
  - rewrite <- !find_by_id_None.
    destruct (find _ _) as [s|], (find _ _) as [t|]; split; intros Hx;
      try done; try (by left); try (by right); by destruct Hx.
Qed.

End DrawnLinks.

(** ** Write-back to a line that had no coordinates *)

Lemma defaultsIn_app l1 l2 : defaultsIn (l1 ++ l2) = defaultsIn l1 + defaultsIn l2.
Proof. induction l1 as [|a l1 IH]; simpl; [done|]. rewrite IH. lia. Qed.

Lemma defaultsIn_insert l i a x :
  l !! i = Some a →
  defaultsIn (<[i:=x]> l) + (if placedByDefault a then 1 else 0)
  = defaultsIn l + (if placedByDefault x then 1 else 0).
Proof.
  intros Hi. pose proof (lookup_lt_Some _ _ _ Hi) as Hlt.
  rewrite insert_take_drop by done.
  rewrite <- (take_drop_middle l i a Hi) at 3.
  rewrite !defaultsIn_app. simpl. lia.
Qed.

Lemma shape_moved (m m' : NodeData) :
  shape m' = shape m → m' = moved m (node_x m') (node_y m').
Proof. destruct m, m'. unfold shape, moved. simpl. by intros [= -> -> -> -> ->]. Qed.

Section WritebackPins.

Context `{Spiral}.

(** Where a node of a parse sits, read off its line. *)
Lemma position_by_line lines n line :
  n ∈ newNodes (parseLines lines) →
  lines !! Z.to_nat (node_lineIndex n) = Some line →
  (node_x n, node_y n)
  = match coordMatch line with
    | Some (_, (g1, g2), _) => (parseInt g1, parseInt g2)
    | None =>
        let k := S (defaultsIn (take (Z.to_nat (node_lineIndex n)) lines)) in
        (spiral_x k, spiral_y k)
    end.
Proof.
  intros Hn Hline.
  apply node_in_parse_of_line in Hn as (i & line0 & Hi & Hline0 & _ & Hn).
  rewrite Hi, Nat2Z.id in *. simplify_eq.
  destruct (coordMatch line0) as [[[b [g1 g2]] r]|] eqn:Hm.
  - by destruct (processLine_explicit_position _ _ _ _ _ _ _ _ Hm Hn) as [-> ->].
  - destruct (processLine_default_position _ _ _ _ Hm Hn) as [-> ->].
    unfold stateBefore, parseLines. by rewrite forEach_angle.
Qed.

(** X16.  Write-back to a line that had no coordinates pins its node and
    sets the later nodes without coordinates one point back on the
    spiral.  The nodes of earlier lines, and the nodes whose line holds a
    coordinate match, are in the new parse as they were.  A node of a later
    line without coordinates sat on the spiral point numbered one more
    than the count of the earlier lines that the spiral placed; in the new
    parse it sits on the point numbered by that count itself.  (The
    rounded position is taken among the safe integers.) *)
Theorem writeback_pins_node (code : jsstring) (n : NodeData) (line : jsstring)
    (nodes' : list NodeData) (nodeId : jsvalue) (node : NodeData) (newX newY : Q)
    (m : NodeData) (line_m : jsstring) :
  n ∈ nodes (parseCode code) →
  str_split LF code !! Z.to_nat (node_lineIndex n) = Some line →
  coordMatch line = None →
  Number_isSafeInteger (Math_round newX) → Number_isSafeInteger (Math_round newY) →
  find (λ m, bool_decide (node_id m = nodeId)) nodes' = Some node →
  node_lineIndex node = node_lineIndex n →
  m ∈ nodes (parseCode code) →
  str_split LF code !! Z.to_nat (node_lineIndex m) = Some line_m →
  let d' := parseCode (updateCodePosition nodes' code nodeId newX newY) in
  ((node_lineIndex m < node_lineIndex n)%Z
   ∨ node_lineIndex m ≠ node_lineIndex n ∧ coordMatch line_m ≠ None → m ∈ nodes d')
  ∧ ((node_lineIndex n < node_lineIndex m)%Z → coordMatch line_m = None →
     let k := defaultsIn (take (Z.to_nat (node_lineIndex m)) (str_split LF code)) in
     node_x m = spiral_x (S k) ∧ node_y m = spiral_y (S k)
     ∧ moved m (spiral_x k) (spiral_y k) ∈ nodes d').
Proof.
  intros Hn Hline Hnone _ _ Hfind Hidx Hm Hline_m d'.
  assert (COORD_REGEX_exec (lineWithoutCoords line) = None) as Hfree.
  { unfold coordMatch in Hnone. unfold lineWithoutCoords, COORD_REGEX_remove.
    rewrite Hnone. unfold cleanLine in *. by rewrite trim_trim. }
  pose proof (position_by_line _ m line_m Hm Hline_m) as Hpos.
  apply node_in_parse_of_line in Hn as (i & line0 & Hi & Hline0 & Hd & Hn).
  rewrite Hi, Nat2Z.id in Hline. simplify_eq.
  assert (placedByDefault line0 = true) as Hdefault.
  { unfold placedByDefault. rewrite (bool_decide_eq_true_2 _ Hnone), andb_true_r.
    by apply declares_declaring. }
  destruct (rewritten_line line0 newX newY (declaring_commands _ Hd) Hfree)
    as (_ & _ & _ & Hx & _).
  assert (placedByDefault (rewritten line0 newX newY) = false) as Hpinned.
  { apply placedByDefault_coordMatch. unfold coord_x in Hx.
    by destruct (coordMatch (rewritten line0 newX newY)). }
  destruct (parse_rewritten_line code i line0 n newX newY Hline0 Hd Hfree Hn)
    as (_ & Hshape & _).
  assert (d' = parseCode (updateCodePosition_line code (Z.of_nat i) newX newY)) as Hd'.
  { unfold d', updateCodePosition. by rewrite Hfind, Hidx, Hi. }
  rewrite Hd'. clear Hd' d'.
  set (d' := parseCode (updateCodePosition_line code (Z.of_nat i) newX newY)) in *.
  pose proof (lookup_lt_Some _ _ _ Hline0) as Hlt.
  assert (str_split LF (updateCodePosition_line code (Z.of_nat i) newX newY)
          = <[i := rewritten line0 newX newY]> (str_split LF code)) as Hlines'.
  { rewrite (updateCodePosition_line_in_range code (Z.of_nat i) _ _ line0)
      by (rewrite ?Nat2Z.id; (lia || done)).
    by rewrite Nat2Z.id. }
  set (lines := str_split LF code) in *.
  assert (0 ≤ node_lineIndex m)%Z as Hnonneg.
  { apply node_in_parse_of_line in Hm as (j0 & _ & -> & _). lia. }
  (* the node of the new parse that stands where [m] stood *)
  apply list_elem_of_lookup_1 in Hm as [p Hp].
  assert (∃ m', nodes d' !! p = Some m' ∧ shape m' = shape m) as (m' & Hp' & Hsh).
  { apply (f_equal (λ l, l !! p)) in Hshape. rewrite !list_lookup_fmap, Hp in Hshape.
    destruct (nodes d' !! p) as [m'|]; [|done]. exists m'. split; [done|].
    simpl in Hshape. congruence. }
  assert (m' ∈ nodes d') as Hm' by (by eapply list_elem_of_lookup_2).
  assert (node_lineIndex m' = node_lineIndex m) as Hj by (unfold shape in Hsh; congruence).
  set (j := Z.to_nat (node_lineIndex m)) in *.
  assert (i ≠ j → (node_x m', node_y m')
                  = match coordMatch line_m with
                    | Some (_, (g1, g2), _) => (parseInt g1, parseInt g2)
                    | None =>
                        let k := S (defaultsIn (take j (<[i := rewritten line0 newX newY]> lines))) in
                        (spiral_x k, spiral_y k)
                    end) as Hpos'.
  { intros Hij. unfold d', parseCode in Hm'. cbn [nodes] in Hm'.
    rewrite Hlines' in Hm'.
    rewrite (position_by_line _ m' line_m Hm'); rewrite Hj; fold j; [done|].
    by rewrite list_lookup_insert_ne. }
  apply shape_moved in Hsh.
  split.
  - intros Hcase.
    assert (i ≠ j) as Hij by (unfold j; destruct Hcase as [?|[? _]]; lia).
    specialize (Hpos' Hij).
    assert ((node_x m', node_y m') = (node_x m, node_y m)) as [= Ex Ey].
    { rewrite Hpos', Hpos. destruct (coordMatch line_m) as [[[b [g1 g2]] r]|]; [done|].
      destruct Hcase as [Hlt'|[_ ?]]; [|done].
      rewrite take_insert_ge by (unfold j; lia). done. }
    rewrite Ex, Ey, moved_same in Hsh. by subst m'.
  - intros Hlater Hnone_m k.
    assert (i < j) as Hij by (unfold j; lia).
    rewrite Hnone_m in Hpos, Hpos'. specialize (Hpos' ltac:(lia)).
    assert (S (defaultsIn (take j (<[i := rewritten line0 newX newY]> lines))) = k) as Hk.
    { rewrite take_insert_lt by done.
      pose proof (defaultsIn_insert (take j lines) i line0 (rewritten line0 newX newY)) as E.
      rewrite lookup_take_lt, Hdefault, Hpinned in E by done.
      specialize (E Hline0). unfold k. fold j. lia. }
    simpl in Hpos, Hpos'. rewrite Hk in Hpos'.
    injection Hpos as -> ->. injection Hpos' as Hx' Hy'.
    split_and!; [done|done|]. rewrite Hsh, Hx', Hy' in Hm'. done.
Qed.

End WritebackPins.

(** * The properties on concrete documents *)

#[local] Existing Instance sample_spiral.

(** The scenarios of the specification. *)

Example scenario_entities_and_links :
  parseCode (document [js "ent A (10, 20)"; js "ent B (30, 40)"; js "rel R (20,30)";
                       js "link A R " ++ quoted (js "1");
                       js "link B R " ++ quoted (js "N")])
  = {| nodes :=
         [{| node_id := Some (js "A"); node_type := Entity; node_label := Some (js "A");
             node_x := 10; node_y := 20; node_meta := None; node_lineIndex := 0 |};
          {| node_id := Some (js "B"); node_type := Entity; node_label := Some (js "B");
             node_x := 30; node_y := 40; node_meta := None; node_lineIndex := 1 |};
          {| node_id := Some (js "R"); node_type := Relationship; node_label := Some (js "R");
             node_x := 20; node_y := 30; node_meta := None; node_lineIndex := 2 |}];
       links :=
         [{| link_source := Some (js "A"); link_target := Some (js "R");
             link_label := js "1"; link_style := Solid |};
          {| link_source := Some (js "B"); link_target := Some (js "R");
             link_label := js "N"; link_style := Solid |}] |}.
Proof. reflexivity. Qed.

Example scenario_attribute_shorthand :
  parseCode (js "att Name -> A")
  = {| nodes :=
         [{| node_id := Some (js "Name_0"); node_type := Attribute;
             node_label := Some (js "Name");
             node_x := 614; node_y := 446; node_meta := None; node_lineIndex := 0 |}];
       links :=
         [{| link_source := Some (js "A"); link_target := Some (js "Name_0");
             link_label := []; link_style := Solid |}] |}.
Proof. reflexivity. Qed.

Example scenario_repeated_label :
  (λ n, (node_id n, node_x n, node_y n)) <$> nodes (parseCode (document [js "ent X"; js "ent X"]))
  = [(Some (js "X"), 614%Z, 446%Z); (Some (js "X_1"), 497%Z, 550%Z)].
Proof. reflexivity. Qed.

Example scenario_total_participation :
  parseCode (js "link EMPLOYEE REL " ++ quoted (js "N") ++ js " [total]")
  = {| nodes := [];
       links := [{| link_source := Some (js "EMPLOYEE"); link_target := Some (js "REL");
                    link_label := js "N"; link_style := Double |}] |}.
Proof. reflexivity. Qed.

Example scenario_writeback :
  updateCodePosition [node_A; node_B] sample_document (Some (js "A")) (inject_Z 99) (inject_Z 5)
  = document [js "ent A (99, 5)"; js "ent B"].
Proof. reflexivity. Qed.

Example scenario_comments_only :
  parseCode (document [js "// a comment"; []; js "   "; js "  // another"])
  = {| nodes := []; links := [] |}.
Proof. reflexivity. Qed.

Example sample_document_parse :
  parseCode sample_document = {| nodes := [node_A; node_B]; links := [] |}.
Proof. reflexivity. Qed.

(** Moving [A] to (99, 4.5) rewrites line 0 to [ent A (99, 5)] and leaves
    line 1 alone. *)
Lemma writeback_frame_witness :
  str_split LF (updateCodePosition [node_A; node_B] sample_document (Some (js "A"))
                  (inject_Z 99) (9 # 2)) !! 0%nat
    = Some (js "ent A (99, 5)")
  ∧ length (str_split LF (updateCodePosition [node_A; node_B] sample_document
                            (Some (js "A")) (inject_Z 99) (9 # 2))) = 2%nat
  ∧ ∀ j, j ≠ 0%nat →
         str_split LF (updateCodePosition [node_A; node_B] sample_document
                         (Some (js "A")) (inject_Z 99) (9 # 2)) !! j
         = str_split LF sample_document !! j.
Proof.
  exact (writeback_frame [node_A; node_B] sample_document (Some (js "A"))
           (inject_Z 99) (9 # 2) node_A (js "ent A (10, 20)")
           eq_refl (Z.le_refl 0) eq_refl eq_refl eq_refl).
Defined.

(** The document lost its second line after the parse: moving [B] does
    nothing. *)
Lemma writeback_out_of_range_witness :
  updateCodePosition [node_A; node_B] (js "ent A (10, 20)") (Some (js "B"))
    (inject_Z 5) (inject_Z 5)
  = js "ent A (10, 20)".
Proof.
  apply (writeback_out_of_range _ _ _ _ _ node_B); [reflexivity|].
  right. vm_compute. intros [=].
Defined.

(** The line [foo bar] counts for nothing. *)
Lemma unrecognized_line_ignored_witness :
  (∀ st, processLine st 1 (js "foo bar") = st)
  ∧ parseCode (document [js "ent A (10, 20)"; []; js "ent B"])
    = parseCode (document [js "ent A (10, 20)"; js "foo bar"; js "ent B"]).
Proof.
  apply (unrecognized_line_ignored
           (document [js "ent A (10, 20)"; js "foo bar"; js "ent B"]) 1 (js "foo bar"));
    [reflexivity|by_evaluation].
Defined.



Example total_in_label_parse :
  parseCode total_in_label
  = {| nodes := [];
       links := [{| link_source := Some (js "A"); link_target := Some (js "B");
                    link_label := js "[total]"; link_style := Double |}] |}.
Proof. reflexivity. Qed.


(** Two attributes called [Name] on lines 0 and 1. *)
Lemma attribute_ids_by_line_witness :
  ∃ n, n ∈ nodes (parseCode (document [js "att Name -> A"; js "att Name -> B"]))
       ∧ node_lineIndex n = 1%Z
       ∧ isAttributeType (node_type n) = true
       ∧ node_label n = Some (js "Name")
       ∧ node_id n = Some (js "Name_1").
Proof.
  apply (proj1 (attribute_ids_by_line (document [js "att Name -> A"; js "att Name -> B"]))
           1 (js "att Name -> B")); [reflexivity|reflexivity|by_evaluation].
Defined.

(** Two runs on the sample document. *)
Lemma parse_deterministic_witness :
  nodes (parseCode sample_document) = nodes (parseCode sample_document)
  ∧ links (parseCode sample_document) = links (parseCode sample_document)
  ∧ ∀ n line,
      n ∈ nodes (parseCode sample_document) →
      str_split LF sample_document !! Z.to_nat (node_lineIndex n) = Some line →
      coordMatch line = None →
      let k := S (defaultsIn (take (Z.to_nat (node_lineIndex n))
                                (str_split LF sample_document))) in
      node_x n = spiral_x k ∧ node_y n = spiral_y k.
Proof. apply (parse_deterministic sample_document sample_document). reflexivity. Defined.

(** [B] is written back where the spiral put it, and is found there again. *)
Lemma roundtrip_position_witness :
  node_B ∈ nodes (parseCode (updateCodePosition [node_A; node_B] sample_document
                               (Some (js "B")) (inject_Z 614) (inject_Z 446))).
Proof.
  apply (roundtrip_position sample_document node_B (js "ent B") [node_A; node_B]
           (Some (js "B")) node_B).
  - apply (list_elem_of_lookup_2 _ 1). reflexivity.
  - reflexivity.
  - reflexivity.
  - reflexivity.
  - reflexivity.
  - reflexivity.
  - reflexivity.
Defined.

(** C1 fails as stated: [A] is parsed at (1, 2); written back unchanged,
    its line reads [ent A (3, 4) (1, 2)], and the only node of the new
    parse is at (3, 4): none is at (1, 2). *)
Lemma roundtrip_fails_on_nested_pair :
  nodes (parseCode nested_pair)
    = [{| node_id := Some (js "A"); node_type := Entity; node_label := Some (js "A");
          node_x := 1; node_y := 2; node_meta := None; node_lineIndex := 0 |}]
  ∧ updateCodePosition (nodes (parseCode nested_pair)) nested_pair (Some (js "A"))
      (inject_Z 1) (inject_Z 2)
    = js "ent A (3, 4) (1, 2)"
  ∧ nodes (parseCode (js "ent A (3, 4) (1, 2)"))
    = [{| node_id := Some (js "A"); node_type := Entity; node_label := Some (js "A");
          node_x := 3; node_y := 4; node_meta := None; node_lineIndex := 0 |}]
  ∧ ¬ ∃ n', n' ∈ nodes (parseCode (js "ent A (3, 4) (1, 2)"))
            ∧ node_x n' = 1%Z ∧ node_y n' = 2%Z.
Proof.
  split_and!; [reflexivity..|].
  intros (n' & Hin & Hx & _). apply list_elem_of_singleton in Hin. by subst n'.
Qed.

(** The same happens on a line with two pairs side by side. *)
Example roundtrip_fails_on_two_pairs :
  (λ n, (node_x n, node_y n)) <$> nodes (parseCode (js "ent A (1, 2) (3, 4)"))
    = [(1%Z, 2%Z)]
  ∧ updateCodePosition (nodes (parseCode (js "ent A (1, 2) (3, 4)")))
      (js "ent A (1, 2) (3, 4)") (Some (js "A")) (inject_Z 1) (inject_Z 2)
    = js "ent A  (3, 4) (1, 2)"
  ∧ (λ n, (node_x n, node_y n)) <$> nodes (parseCode (js "ent A  (3, 4) (1, 2)"))
    = [(3%Z, 4%Z)].
Proof. split_and!; reflexivity. Qed.

(** ** The further properties on concrete documents *)

Lemma explicit_position_honoured_witness :
  node_x node_A = parseInt (js "10") ∧ node_y node_A = parseInt (js "20").
Proof.
  apply (explicit_position_honoured sample_document node_A (js "ent A (10, 20)")
           (js "ent A ") (js "10") (js "20") []).
  - apply (list_elem_of_lookup_2 _ 0). reflexivity.
  - reflexivity.
  - reflexivity.
  - reflexivity.
  - reflexivity.
Defined.

Lemma positioned_document_ignores_spiral_witness :
  @parseCode sample_spiral (document [js "ent A (10, 20)"; js "rel R (20,30)"])
  = @parseCode origin_spiral (document [js "ent A (10, 20)"; js "rel R (20,30)"]).
Proof.
  apply (positioned_document_ignores_spiral sample_spiral origin_spiral).
  by_evaluation.
Defined.

Lemma last_writeback_wins_witness :
  updateCodePosition [node_A; node_B]
    (updateCodePosition [node_A; node_B] sample_document (Some (js "A")) (7 # 2) (1 # 1))
    (Some (js "A")) (30 # 1) (-5 # 2)
  = updateCodePosition [node_A; node_B] sample_document (Some (js "A")) (30 # 1) (-5 # 2).
Proof.
  apply (last_writeback_wins [node_A; node_B] sample_document (Some (js "A")) node_A
           (js "ent A (10, 20)")).
  - reflexivity.
  - simpl. lia.
  - reflexivity.
  - reflexivity.
  - reflexivity.
  - reflexivity.
  - reflexivity.
  - reflexivity.
Defined.

Lemma writeback_then_parse_witness :
  moved node_B (Math_round (7 # 2)) (Math_round (-5 # 2))
    ∈ nodes (parseCode (updateCodePosition [node_A; node_B] sample_document
                          (Some (js "B")) (7 # 2) (-5 # 2)))
  ∧ shape <$> nodes (parseCode (updateCodePosition [node_A; node_B] sample_document
                                  (Some (js "B")) (7 # 2) (-5 # 2)))
    = shape <$> nodes (parseCode sample_document)
  ∧ links (parseCode (updateCodePosition [node_A; node_B] sample_document
                        (Some (js "B")) (7 # 2) (-5 # 2)))
    = links (parseCode sample_document).
Proof.
  apply (writeback_then_parse sample_document node_B (js "ent B") [node_A; node_B]
           (Some (js "B")) node_B (7 # 2) (-5 # 2)).
  - apply (list_elem_of_lookup_2 _ 1). reflexivity.
  - reflexivity.
  - reflexivity.
  - reflexivity.
  - reflexivity.
  - reflexivity.
  - reflexivity.
Defined.

Lemma writeback_moves_one_node_witness :
  nodes (parseCode (updateCodePosition [node_A; node_B] sample_document
                      (Some (js "A")) (7 # 2) (-5 # 2)))
    = (λ m, if bool_decide (node_lineIndex m = node_lineIndex node_A)
            then moved m (Math_round (7 # 2)) (Math_round (-5 # 2)) else m)
      <$> nodes (parseCode sample_document)
  ∧ links (parseCode (updateCodePosition [node_A; node_B] sample_document
                        (Some (js "A")) (7 # 2) (-5 # 2)))
    = links (parseCode sample_document).
Proof.
  apply (writeback_moves_one_node sample_document node_A (js "ent A (10, 20)")
           [node_A; node_B] (Some (js "A")) node_A (7 # 2) (-5 # 2)).
  - apply (list_elem_of_lookup_2 _ 0). reflexivity.
  - reflexivity.
  - by_evaluation.
  - reflexivity.
  - reflexivity.
  - reflexivity.
  - reflexivity.
  - reflexivity.
Defined.

Lemma ids_distinct_for_plain_labels_witness :
  NoDup (node_id <$> nodes (parseCode (document [js "ent A"; js "att A"; js "ent A";
                                                 js "spec"; js "union u -> A"])))
  ∧ ∀ n m,
      n ∈ nodes (parseCode (document [js "ent A"; js "att A"; js "ent A";
                                      js "spec"; js "union u -> A"])) →
      m ∈ nodes (parseCode (document [js "ent A"; js "att A"; js "ent A";
                                      js "spec"; js "union u -> A"])) →
      node_id n = node_id m → n = m.
Proof.
  apply (ids_distinct_for_plain_labels
           (document [js "ent A"; js "att A"; js "ent A"; js "spec"; js "union u -> A"])).
  by_evaluation.
Defined.

Lemma node_id_rule_witness :
  ∃ n, n ∈ nodes (parseCode (document [js "ent A"; js "ent A"]))
       ∧ node_lineIndex n = Z.of_nat 1
       ∧ node_label n = parts (js "ent A") !! 1
       ∧ ((∃ m, m ∈ nodes (parseCode (document [js "ent A"; js "ent A"]))
                ∧ (node_lineIndex m < Z.of_nat 1)%Z
                ∧ node_id m = parts (js "ent A") !! 1)
          → node_id n
            = Some (template (parts (js "ent A") !! 1) ++ js "_" ++ decimal (N.of_nat 1)))
       ∧ ((¬ ∃ m, m ∈ nodes (parseCode (document [js "ent A"; js "ent A"]))
                  ∧ (node_lineIndex m < Z.of_nat 1)%Z
                  ∧ node_id m = parts (js "ent A") !! 1)
          → node_id n = parts (js "ent A") !! 1).
Proof.
  apply (node_id_rule (document [js "ent A"; js "ent A"]) 1 (js "ent A")).
  - reflexivity.
  - reflexivity.
  - by_evaluation.
  - by_evaluation.
Defined.

Lemma links_have_endpoints_witness :
  truthy (link_source owner_link) = true ∧ truthy (link_target owner_link) = true.
Proof.
  apply (links_have_endpoints owned_attribute owner_link).
  apply (list_elem_of_lookup_2 _ 0). reflexivity.
Defined.

Lemma shorthand_link_witness :
  ∃ n l, n ∈ nodes (parseCode owned_attribute) ∧ node_lineIndex n = Z.of_nat 1
         ∧ l ∈ links (parseCode owned_attribute)
         ∧ link_source l = parts (js "att Name -> A") !! 3
         ∧ link_target l = node_id n
         ∧ link_label l = []
         ∧ link_style l
           = if bool_decide (command (js "att Name -> A") ∈ nodeCommands)
             then Solid else Double.
Proof.
  apply (shorthand_link owned_attribute 1 (js "att Name -> A")).
  - reflexivity.
  - reflexivity.
  - reflexivity.
  - reflexivity.
Defined.

Lemma drag_persists_witness :
  moved node_B (Math_round (7 # 2)) (Math_round (-5 # 2))
    ∈ nodes (parseCode (updateCodePosition (nodes (parseCode sample_document))
                          sample_document (node_id node_B) (7 # 2) (-5 # 2)))
  ∧ node_id <$> nodes (parseCode (updateCodePosition (nodes (parseCode sample_document))
                                    sample_document (node_id node_B) (7 # 2) (-5 # 2)))
    = node_id <$> nodes (parseCode sample_document)
  ∧ Forall (λ line, plainLabel line = true)
      (str_split LF (updateCodePosition (nodes (parseCode sample_document))
                       sample_document (node_id node_B) (7 # 2) (-5 # 2))).
Proof.
  apply (drag_persists sample_document node_B (js "ent B") (7 # 2) (-5 # 2)).
  - by_evaluation.
  - apply (list_elem_of_lookup_2 _ 1). reflexivity.
  - reflexivity.
  - reflexivity.
  - reflexivity.
  - reflexivity.
Defined.

Lemma spec_id_rule_witness :
  ∃ n, n ∈ nodes (parseCode (document [js "spec"; js "union spec_0"]))
       ∧ node_lineIndex n = Z.of_nat 1
       ∧ node_type n
         = (if decide (command (js "union spec_0") = js "union")
            then UnionNode else Specialization)
       ∧ node_label n
         = Some (or_else (parts (js "union spec_0") !! 1)
                   (if decide (command (js "union spec_0") = js "union")
                    then js "u" else js "d"))
       ∧ node_meta n = node_label n
       ∧ ((∃ m, m ∈ nodes (parseCode (document [js "spec"; js "union spec_0"]))
                ∧ (node_lineIndex m < Z.of_nat 1)%Z
                ∧ node_id m
                  = Some (or_else (parts (js "union spec_0") !! 1)
                            (js "spec_" ++ decimal (N.of_nat 1))))
          → node_id n
            = Some (or_else (parts (js "union spec_0") !! 1)
                      (js "spec_" ++ decimal (N.of_nat 1))
                    ++ js "_" ++ decimal (N.of_nat 1)))
       ∧ ((¬ ∃ m, m ∈ nodes (parseCode (document [js "spec"; js "union spec_0"]))
                  ∧ (node_lineIndex m < Z.of_nat 1)%Z
                  ∧ node_id m
                    = Some (or_else (parts (js "union spec_0") !! 1)
                              (js "spec_" ++ decimal (N.of_nat 1))))
          → node_id n
            = Some (or_else (parts (js "union spec_0") !! 1)
                      (js "spec_" ++ decimal (N.of_nat 1)))).
Proof.
  apply (spec_id_rule (document [js "spec"; js "union spec_0"]) 1 (js "union spec_0")).
  - reflexivity.
  - reflexivity.
  - by_evaluation.
Defined.

Lemma link_drawn_between_witness :
  (∀ s t, s ∈ nodes (parseCode owned_attribute) → t ∈ nodes (parseCode owned_attribute) →
          node_id s = link_source owner_link → node_id t = link_target owner_link →
          renderLinks_nodes (nodes (parseCode owned_attribute)) owner_link = Some (s, t))
  ∧ (renderLinks_nodes (nodes (parseCode owned_attribute)) owner_link = None
     ↔ link_source owner_link ∉ node_id <$> nodes (parseCode owned_attribute)
       ∨ link_target owner_link ∉ node_id <$> nodes (parseCode owned_attribute)).
Proof.
  apply (link_drawn_between owned_attribute owner_link).
  by_evaluation.
Defined.

Lemma writeback_pins_node_witness :
  ((node_lineIndex entity_C < node_lineIndex entity_A)%Z
   ∨ node_lineIndex entity_C ≠ node_lineIndex entity_A ∧ coordMatch (js "ent C") ≠ None
   → entity_C ∈ nodes (parseCode (updateCodePosition [entity_A; entity_B; entity_C]
                                    three_entities (Some (js "A")) (7 # 2) (-5 # 2))))
  ∧ ((node_lineIndex entity_A < node_lineIndex entity_C)%Z →
     coordMatch (js "ent C") = None →
     node_x entity_C
       = spiral_x (S (defaultsIn (take (Z.to_nat (node_lineIndex entity_C))
                                    (str_split LF three_entities))))
     ∧ node_y entity_C
       = spiral_y (S (defaultsIn (take (Z.to_nat (node_lineIndex entity_C))
                                    (str_split LF three_entities))))
     ∧ moved entity_C
         (spiral_x (defaultsIn (take (Z.to_nat (node_lineIndex entity_C))
                                  (str_split LF three_entities))))
         (spiral_y (defaultsIn (take (Z.to_nat (node_lineIndex entity_C))
                                  (str_split LF three_entities))))
       ∈ nodes (parseCode (updateCodePosition [entity_A; entity_B; entity_C]
                             three_entities (Some (js "A")) (7 # 2) (-5 # 2)))).
Proof.
  apply (writeback_pins_node three_entities entity_A (js "ent A")
           [entity_A; entity_B; entity_C] (Some (js "A")) entity_A (7 # 2) (-5 # 2)
           entity_C (js "ent C")).
  - apply (list_elem_of_lookup_2 _ 0). reflexivity.
  - reflexivity.
  - reflexivity.
  - reflexivity.
  - reflexivity.
  - reflexivity.
  - reflexivity.
  - apply (list_elem_of_lookup_2 _ 2). reflexivity.
  - reflexivity.
Defined.
